(** * logcompress: a shallow embedding of [logcompressor/logcompress.py]

    Strings are modelled as Stdlib [string]s over [ascii]; the regular
    expressions the module uses are embedded as hand-written matchers, one
    per pattern, following Python's [re] semantics for that pattern. *)

From Stdlib Require Import String Ascii ZArith Lia.
From stdpp Require Import base list gmap strings.

Local Open Scope string_scope.

(* ================================================================= *)
(** ** The token allocator ([class Token]) *)

Module Token.

(** [Token.chars = string.digits + string.ascii_letters] *)
Definition chars : list ascii :=
  list_ascii_of_string
    "0123456789abcdefghijklmnopqrstuvwxyzABCDEFGHIJKLMNOPQRSTUVWXYZ".

Definition char_of (i : nat) : ascii := nth i chars "0"%char.

(** A generator [(char for char in Token.chars)] is modelled by the
    position of the next character it yields; position 62 is exhausted. *)
Definition get_gen : nat := 0.

Definition gen_next (g : nat) : option (nat * nat) :=
  if (g <? List.length chars)%nat then Some (g, S g) else None.

(** [self.digits] holds alphabet positions, [self.generators] the
    generator states, both in Python list order. *)
Record t := mk { digits : list nat; generators : list nat }.

(** [self.digits[index]] for a Python index that may be negative. *)
Definition py_index (n : nat) (index : Z) : nat :=
  if (index <? 0)%Z then Z.to_nat (Z.of_nat n + index) else Z.to_nat index.

(** [next(self.get_gen())]: a fresh generator yields position 0. *)
Definition fresh_next : nat * nat :=
  match gen_next get_gen with Some p => p | None => (0, get_gen) end.

(** [__init__]: [generators = [get_gen()]; digits = [next(generators[0])]]. *)
Definition init : t :=
  mk [fresh_next.1] [fresh_next.2].

(** The [while index > 0 - len(self.digits)] loop of [__next__]. *)
Fixpoint next_loop (fuel : nat) (index : Z) (s : t) : t :=
  match fuel with
  | O => s
  | S fuel' =>
      let n := List.length (digits s) in
      if (- Z.of_nat n <? index)%Z then
        let i := py_index n index in
        match gen_next (nth i (generators s) (List.length chars)) with
        | Some (c, g') =>
            (* self.digits[index] = next(self.generators[index]); break *)
            mk (<[i := c]> (digits s)) (<[i := g']> (generators s))
        | None =>
            (* except StopIteration: reset this position, move left *)
            let s' := mk (<[i := fresh_next.1]> (digits s))
                         (<[i := fresh_next.2]> (generators s)) in
            let index' := (index - 1)%Z in
            if (index' =? - Z.of_nat n)%Z then
              mk (digits s' ++ [fresh_next.1]) (generators s' ++ [fresh_next.2])
            else next_loop fuel' index' s'
        end
      else s
  end.

(** [token] property: ['<' + ''.join(self.digits) + '>']. *)
Definition token (s : t) : string :=
  "<" ++ string_of_list_ascii (map char_of (digits s)) ++ ">".

(** [current()] is the [token] property: it reads the state only. *)
Definition current (s : t) : string * t := (token s, s).

(** [__next__]: the loop runs at most [len(self.digits)] times. *)
Definition next (s : t) : string * t :=
  let s' := next_loop (S (List.length (digits s))) 0 s in (token s', s').

(** The state after [k] calls of [next]. *)
Fixpoint iter (k : nat) (s : t) : t :=
  match k with O => s | S k' => (next (iter k' s)).2 end.

(** *** Proof devices: the significance order the loop implements *)

(** Value of a digit list read most-significant digit first. *)
Fixpoint msb (l : list nat) : nat :=
  match l with [] => 0 | d :: l' => d * 62 ^ List.length l' + msb l' end.

(** Value of a digit list read least-significant digit first. *)
Fixpoint lsb (l : list nat) : nat :=
  match l with [] => 0 | d :: l' => d + 62 * lsb l' end.

(** Increment of a least-significant-first digit list; [true] when the
    carry leaves the most significant position. *)
Fixpoint incr_lsb (l : list nat) : list nat * bool :=
  match l with
  | [] => ([], true)
  | d :: l' =>
      if (d <? 61)%nat then (S d :: l', false)
      else let '(l'', c) := incr_lsb l' in (0 :: l'', c)
  end.

Definition incr_msb (l : list nat) : list nat * bool :=
  let '(r, c) := incr_lsb (rev l) in (rev r, c).

(** What [__next__] does to [self.digits]: position 0 is the least
    significant, then the positions from the end of the list back to
    position 1; a full carry resets every position and appends one. *)
Definition next_spec (ds : list nat) : list nat :=
  match ds with
  | [] => []
  | d0 :: rest =>
      if (d0 <? 61)%nat then S d0 :: rest
      else let '(r, c) := incr_msb rest in
           if c then 0 :: r ++ [0] else 0 :: r
  end.

(** The numeric value of [self.digits] under that order. *)
Definition val (ds : list nat) : nat :=
  match ds with [] => 0 | d0 :: rest => d0 + 62 * msb rest end.

(** Number of digit lists shorter than [n] (lengths 1 .. n-1). *)
Fixpoint offset (n : nat) : nat :=
  match n with
  | O => 0
  | S n' => match n' with O => 0 | _ => offset n' + 62 ^ n' end
  end.

Definition rank (s : t) : nat := offset (List.length (digits s)) + val (digits s).

(** Well-formed allocator states: each generator has yielded exactly
    the digit stored at its position. *)
Definition wf (s : t) : Prop :=
  1 <= List.length (digits s) /\ Forall (fun d => d < 62) (digits s) /\
  generators s = S <$> digits s.

Definition mkw (ds : list nat) : t := mk ds (S <$> ds).

End Token.

(* ================================================================= *)
(** ** Text helpers and the regular expressions of the module *)

Module Text.
Local Open Scope nat_scope.
Local Open Scope list_scope.

Definition los : string -> list ascii := list_ascii_of_string.
Definition sol : list ascii -> string := string_of_list_ascii.

Definition nl : ascii := "010"%char.
Definition dquote : ascii := "034"%char.
Definition backslash : ascii := "\"%char.

(** The delimiter [_$_] that [encode_punct_and_digits] writes. *)
Definition marker : list ascii := los "_$_".

(** [str.isspace], for the code points 0 to 255. *)
Definition is_ws (c : ascii) : bool :=
  let n := nat_of_ascii c in
  ((9 <=? n) && (n <=? 13)) || ((28 <=? n) && (n <=? 32)) || (n =? 133) || (n =? 160).

Definition is_digit (c : ascii) : bool :=
  let n := nat_of_ascii c in (48 <=? n) && (n <=? 57).

Definition is_letter (c : ascii) : bool :=
  let n := nat_of_ascii c in ((65 <=? n) && (n <=? 90)) || ((97 <=? n) && (n <=? 122)).

Definition mem (c : ascii) (l : list ascii) : bool := existsb (Ascii.eqb c) l.

(** The class of the pattern of [encode_punct_and_digits]: [\d], the bar,
    and the listed punctuation. The source writes the closing bracket as an
    escaped bracket, so the backslash is not in the class; neither are the
    hyphen and the underscore. *)
Definition punct_class : list ascii :=
  dquote :: los "|!#$%&'()*+,./:;<=>?@[]^`{}~".

Definition in_class (c : ascii) : bool := is_digit c || mem c punct_class.

Fixpoint is_prefix (p l : list ascii) : bool :=
  match p, l with
  | [], _ => true
  | a :: p', b :: l' => Ascii.eqb a b && is_prefix p' l'
  | _ :: _, [] => false
  end.

Fixpoint drop_ws (l : list ascii) : list ascii :=
  match l with [] => [] | c :: l' => if is_ws c then drop_ws l' else l end.

(** [str.rstrip()] and [str.strip()]. *)
Definition rstrip (l : list ascii) : list ascii := rev (drop_ws (rev l)).
Definition strip (l : list ascii) : list ascii := rstrip (drop_ws l).

(** [str.split()]: maximal runs of non-space characters. *)
Fixpoint split_aux (l : list ascii) (cur : list ascii) : list (list ascii) :=
  match l with
  | [] => match cur with [] => [] | _ => [rev cur] end
  | c :: l' =>
      if is_ws c then
        match cur with [] => split_aux l' [] | _ => rev cur :: split_aux l' [] end
      else split_aux l' (c :: cur)
  end.

Definition py_split (s : string) : list string := map sol (split_aux (los s) []).

(** [sep.join(items)]. *)
Fixpoint join (sep : list ascii) (items : list (list ascii)) : list ascii :=
  match items with
  | [] => []
  | [x] => x
  | x :: items' => x ++ sep ++ join sep items'
  end.

(** [re.sub(r'([<class>]+)', r'_$_\1_$_', line)]: every maximal run of
    class characters is wrapped in markers. [inrun] says whether the
    previous character was in a run. *)
Fixpoint encode_run (l : list ascii) (inrun : bool) : list ascii :=
  match l with
  | [] => if inrun then marker else []
  | c :: l' =>
      if in_class c then (if inrun then [] else marker) ++ c :: encode_run l' true
      else (if inrun then marker else []) ++ c :: encode_run l' false
  end.

Definition encode_punct_and_digits (line : string) : string :=
  sol (encode_run (los line) false).

(** The part after [' {'] of the trailer patterns of the module
    (a greedy group, a closing brace and an end anchor), matched at the rest of the string: a greedy run with no newline, a
    closing brace, then the end of the string or a newline that ends it.
    Returns the group and what is left after the match. *)
Definition brace_tail (rest : list ascii) : option (list ascii * list ascii) :=
  match rev rest with
  | c :: r =>
      if Ascii.eqb c "}"%char && negb (mem nl r) then Some (rev r, [])
      else if Ascii.eqb c nl then
        match r with
        | c' :: r' =>
            if Ascii.eqb c' "}"%char && negb (mem nl r') then Some (rev r', [nl]) else None
        | [] => None
        end
      else None
  | [] => None
  end.

(** [re.search] of the trailer pattern: the leftmost match, as
    (text before it, group 1, text after it). *)
Fixpoint search_brace (l : list ascii) : option (list ascii * list ascii * list ascii) :=
  match l with
  | [] => None
  | c :: l' =>
      let here :=
        if Ascii.eqb c " "%char then
          match l' with
          | d :: rest => if Ascii.eqb d "{"%char then brace_tail rest else None
          | [] => None
          end
        else None in
      match here with
      | Some (g, after) => Some ([], g, after)
      | None =>
          match search_brace l' with
          | Some (b, g, a) => Some (c :: b, g, a)
          | None => None
          end
      end
  end.

(** The lazy part [(.*?)_\$_] of [_\$_(.*?)_\$_]: the shortest run with no
    newline followed by a marker; returns the group and the text after. *)
Fixpoint lazy_group (l : list ascii) : option (list ascii * list ascii) :=
  if is_prefix marker l then Some ([], drop 3 l)
  else match l with
       | [] => None
       | c :: l' =>
           if Ascii.eqb c nl then None
           else match lazy_group l' with
                | Some (g, r) => Some (c :: g, r)
                | None => None
                end
       end.

Definition marker_match (l : list ascii) : option (list ascii * list ascii) :=
  if is_prefix marker l then lazy_group (drop 3 l) else None.

(** [re.findall('_\$_(.*?)_\$_', s)]: leftmost, non-overlapping. *)
Fixpoint findall_groups (fuel : nat) (l : list ascii) : list (list ascii) :=
  match fuel with
  | O => []
  | S fuel' =>
      match l with
      | [] => []
      | _ :: l' =>
          match marker_match l with
          | Some (g, r) => g :: findall_groups fuel' r
          | None => findall_groups fuel' l'
          end
      end
  end.

Definition findall_markers (l : list ascii) : list (list ascii) :=
  findall_groups (S (List.length l)) l.

(** [re.sub('_\$_.*?_\$_', '#', s)]. *)
Fixpoint sub_groups (fuel : nat) (l : list ascii) : list ascii :=
  match fuel with
  | O => l
  | S fuel' =>
      match l with
      | [] => []
      | c :: l' =>
          match marker_match l with
          | Some (_, r) => "#"%char :: sub_groups fuel' r
          | None => c :: sub_groups fuel' l'
          end
      end
  end.

Definition sub_markers (l : list ascii) : list ascii := sub_groups (S (List.length l)) l.

(** [clean_encoding(line)]. *)
Definition clean_encoding (line : string) : string :=
  match line with
  | EmptyString => EmptyString
  | _ =>
      let l := sub_markers (los line) in
      (* re.sub(' \{.*\}$', '', line) *)
      let l := match search_brace l with Some (b, _, a) => b ++ a | None => l end in
      sol l
  end.

(** [RegExCompressor.split_trailer(line)]. *)
Definition split_trailer (line : string) : string * string :=
  let l := los line in
  let trailer := match search_brace (rstrip l) with Some (_, g, _) => g | None => [] end in
  let items := findall_markers l in
  let newtraileritems := join [" "%char] items in
  let trailer :=
    match trailer, newtraileritems with
    | [], [] => trailer
    | _, _ => los " {" ++ strip (trailer ++ " "%char :: newtraileritems) ++ los "}"
    end in
  (sol (rstrip (los (clean_encoding line))), sol trailer).

(** *** Rule patterns: [re.subn(regex.regex, regex.token, line)]

    A rule's pattern is its phrase, unescaped. The parser below follows
    [sre_parse] on patterns made of literal characters and escapes; a
    pattern using any other regex syntax is reported as [NotModelled]. *)

Inductive exn : Type :=
  | ReError (msg : string)   (* re.error raised by the pattern parser *)
  | NotModelled.             (* regex syntax outside the modelled fragment *)

Definition control_escape (e : ascii) : option ascii :=
  if Ascii.eqb e "a"%char then Some (ascii_of_nat 7)
  else if Ascii.eqb e "f"%char then Some (ascii_of_nat 12)
  else if Ascii.eqb e "n"%char then Some (ascii_of_nat 10)
  else if Ascii.eqb e "r"%char then Some (ascii_of_nat 13)
  else if Ascii.eqb e "t"%char then Some (ascii_of_nat 9)
  else if Ascii.eqb e "v"%char then Some (ascii_of_nat 11)
  else None.

(** Escapes [sre_parse] accepts with a meaning other than a literal. *)
Definition special_escape (e : ascii) : bool :=
  mem e (los "AbBdDsSwWZxuUN") || is_digit e.

Definition is_meta (c : ascii) : bool := mem c (los ".^$*+?{[|()").

Fixpoint parse_literal (p : list ascii) : exn + list ascii :=
  match p with
  | [] => inr []
  | c :: p' =>
      if Ascii.eqb c backslash then
        match p' with
        | [] => inl (ReError "bad escape (end of pattern)")
        | e :: p'' =>
            if is_digit e || is_letter e then
              match control_escape e with
              | Some x => match parse_literal p'' with inl err => inl err | inr r => inr (x :: r) end
              | None =>
                  if special_escape e then inl NotModelled
                  else inl (ReError ("bad escape \" ++ String e EmptyString)%string)
              end
            else match parse_literal p'' with inl err => inl err | inr r => inr (e :: r) end
        end
      else if is_meta c then inl NotModelled
      else match parse_literal p' with inl err => inl err | inr r => inr (c :: r) end
  end.

(** Leftmost, non-overlapping replacement of a non-empty literal. *)
Fixpoint subn_lit (fuel : nat) (pat repl s : list ascii) : list ascii * nat :=
  match fuel with
  | O => (s, 0)
  | S fuel' =>
      match s with
      | [] => ([], 0)
      | c :: s' =>
          if is_prefix pat s then
            let '(r, n) := subn_lit fuel' pat repl (drop (List.length pat) s) in (repl ++ r, S n)
          else let '(r, n) := subn_lit fuel' pat repl s' in (c :: r, n)
      end
  end.

(** [re.subn(pattern, repl, line)] for a pattern in the modelled
    fragment and a replacement with no backslash (tokens are [<...>]). *)
Definition re_subn (pattern repl line : string) : exn + (string * nat) :=
  match parse_literal (los pattern) with
  | inl e => inl e
  | inr [] => inl NotModelled
  | inr pat =>
      if mem backslash (los repl) then inl NotModelled
      else let '(out, n) := subn_lit (S (List.length (los line))) pat (los repl) (los line) in
           inr (sol out, n)
  end.

(** Python's [needle in hay] on strings. *)
Fixpoint in_l (p l : list ascii) : bool :=
  is_prefix p l || match l with [] => false | _ :: l' => in_l p l' end.

Definition py_in (needle hay : string) : bool := in_l (los needle) (los hay).

(** A line as [file.readline()] returns it: the text and its newline. *)
Definition line_of (s : string) : string := (s ++ String nl EmptyString)%string.

End Text.

(* ================================================================= *)
(** ** The compressor: [RegExCompressor] *)

Module Compressor.
Import Text.
Local Open Scope nat_scope.
Local Open Scope list_scope.

(** [RegExTuple = namedtuple('RegExTuple', ['replaces', 'regex', 'token'])]. *)
Record RegExTuple : Type := mkRegExTuple { replaces : string; regex : string; token : string }.

(** The fields of a [RegExCompressor]. [phrases] is the class attribute
    [PhraseNode.phrases]: each word to the counts of the words seen just
    before it (its [parents]). [expressions] is [self._expressions] in
    insertion order; [token_gen] is [self.token]. *)
Record state : Type := mkState {
  phrases : gmap string (gmap string nat);
  expressions : list (string * RegExTuple);
  token_gen : Token.t;
  compressed_output : list string }.

Definition set_phrases f (st : state) : state :=
  mkState (f (phrases st)) (expressions st) (token_gen st) (compressed_output st).
Definition set_expressions f (st : state) : state :=
  mkState (phrases st) (f (expressions st)) (token_gen st) (compressed_output st).
Definition set_token_gen t (st : state) : state :=
  mkState (phrases st) (expressions st) t (compressed_output st).
Definition set_compressed_output f (st : state) : state :=
  mkState (phrases st) (expressions st) (token_gen st) (f (compressed_output st)).

(** The word of the root node, [PhraseNode('\n')]. *)
Definition root_word : string := String nl EmptyString.

(** [RegExCompressor()]: the root node registered, no rules, a fresh token. *)
Definition init_state : state := mkState {[ root_word := ∅ ]} [] Token.init [].

(** A computation over the compressor: it returns a value and the new
    state, raises an exception, or runs out of its fuel (the only loop with
    fuel that need not end is the loop of [press]). *)
Inductive outcome (A : Type) : Type :=
  | Done (a : A) (st : state)
  | Raised (e : exn)
  | OutOfFuel.
Arguments Done {A}. Arguments Raised {A}. Arguments OutOfFuel {A}.

Definition M (A : Type) : Type := state -> outcome A.

#[export] Instance M_ret : MRet M := fun A a st => Done a st.
#[export] Instance M_bind : MBind M := fun A B k m st =>
  match m st with
  | Done a st' => k a st'
  | Raised e => Raised e
  | OutOfFuel => OutOfFuel
  end.

Definition get : M state := fun st => Done st st.
Definition modify (f : state -> state) : M unit := fun st => Done tt (f st).
Definition throw {A} (e : exn) : M A := fun _ => Raised e.
Definition out_of_fuel {A} : M A := fun _ => OutOfFuel.
Definition of_sum {A} (x : exn + A) : M A :=
  match x with inl e => throw e | inr a => mret a end.

Fixpoint assoc_mem (k : string) (l : list (string * RegExTuple)) : bool :=
  match l with [] => false | (k', _) :: l' => String.eqb k k' || assoc_mem k l' end.

(** [gen_regex(node1, node2)]: a new rule for the phrase [node1 node2],
    or [None] when the phrase already has one. *)
Definition gen_regex (node1 node2 : string) : M (option RegExTuple) :=
  st ← get;
  let replaces := (node1 ++ " " ++ node2)%string in
  if assoc_mem replaces (expressions st) then mret None
  else
    let '(tk, tg) := Token.next (token_gen st) in
    let r := mkRegExTuple replaces replaces tk in
    _ ← modify (fun st => set_token_gen tg (set_expressions (fun e => e ++ [(replaces, r)]) st));
    mret (Some r).

(** [apply_one(line, regex)]. *)
Definition apply_one (line : string) (r : RegExTuple) : exn + (string * nat) :=
  re_subn (regex r) (token r) line.

Fixpoint apply_all (rs : list (string * RegExTuple)) (line : string) : exn + (string * nat) :=
  match rs with
  | [] => inr (line, 0)
  | (_, r) :: rs' =>
      match apply_one line r with
      | inl e => inl e
      | inr (line', d) =>
          match apply_all rs' line' with
          | inl e => inl e
          | inr (line'', d') => inr (line'', d + d')
          end
      end
  end.

(** [apply_regexes(line)]: every rule, in insertion order. *)
Definition apply_regexes (line : string) : M (string * nat) :=
  st ← get; of_sum (apply_all (expressions st) line).

Definition parents_of (st : state) (w : string) : gmap string nat :=
  default ∅ (phrases st !! w).

(** [PhraseNode(word)]: registers the word if it is new. *)
Definition phrase_node (w : string) : M unit :=
  modify (set_phrases (fun ph => match ph !! w with Some _ => ph | None => <[w := ∅]> ph end)).

(** [node.add_parent(lastnode)]: returns the new count. *)
Definition add_parent (node lastnode : string) : M nat :=
  st ← get;
  let ps := parents_of st node in
  let c := match ps !! lastnode with Some n => n + 1 | None => 1 end in
  _ ← modify (set_phrases (<[node := <[lastnode := c]> ps]>));
  mret c.

(** The loop of [map_nodes]; [last_is_root] says whether [lastnode] is
    still [self.root]. The threshold is the literal 5 of the source. *)
Fixpoint map_words (words : list string) (lastnode : string) (last_is_root : bool)
    (index : nat) (todo : list (RegExTuple * nat)) : M (list (RegExTuple * nat)) :=
  match words with
  | [] => mret todo
  | w :: ws =>
      if String.eqb w EmptyString then map_words ws lastnode last_is_root index todo
      else
        _ ← phrase_node w;
        count ← add_parent w lastnode;
        todo' ← (if (5 <=? count) && negb last_is_root then
                   new_reg ← gen_regex lastnode w;
                   mret (match new_reg with Some r => todo ++ [(r, index)] | None => todo end)
                 else mret todo);
        map_words ws w false index todo'
  end.

(** [map_nodes(line, index, todo_list)]. *)
Definition map_nodes (line : string) (index : nat) (todo : list (RegExTuple * nat))
    : M (list (RegExTuple * nat)) :=
  map_words (py_split line) root_word true index todo.

Definition pass_result : Type := (list string * nat * list (RegExTuple * nat))%type.

(** The first loop of [press_mainloop]. The body of a line goes through
    the rules and is stored in [chunk[index]]; [line = line + trailer]
    after it is a dead assignment, and [map_nodes] walks [line], the body
    before the rules ran. *)
Fixpoint first_pass (fuel index : nat) (chunk : list string) (changes : nat)
    (todo : list (RegExTuple * nat)) : M pass_result :=
  match fuel with
  | O => mret (chunk, changes, todo)
  | S fuel' =>
      match chunk !! index with
      | None => mret (chunk, changes, todo)
      | Some line0 =>
          let '(line, trailer) := split_trailer line0 in
          p ← apply_regexes line;
          let '(new, d) := p in
          let chunk := <[index := new]> chunk in
          todo ← map_nodes line index todo;
          first_pass fuel' (S index) chunk (changes + d) todo
      end
  end.

(** The inner loop of the catch-up: [for todo_index, (regex, stopline) in
    enumerate(todo_list)], over the list as it is mutated, where [line] is
    the line as it was when the inner loop began. *)
Fixpoint catch_todo (fuel t : nat) (line : string) (index : nat) (chunk : list string)
    (changes : nat) (todo : list (RegExTuple * nat)) : M pass_result :=
  match fuel with
  | O => mret (chunk, changes, todo)
  | S fuel' =>
      match todo !! t with
      | None => mret (chunk, changes, todo)
      | Some (r, stopline) =>
          p ← of_sum (apply_one line r);
          let '(new, d) := p in
          let chunk := <[index := new]> chunk in
          let todo :=
            if (t =? stopline) && negb (t =? List.length todo - 1) then
              match last todo with Some x => <[t := x]> (removelast todo) | None => todo end
            else todo in
          catch_todo fuel' (S t) line index chunk (changes + d) todo
      end
  end.

(** The outer loop of the catch-up, over [enumerate(chunk)]. *)
Fixpoint catch_up (fuel index : nat) (chunk : list string) (changes : nat)
    (todo : list (RegExTuple * nat)) : M pass_result :=
  match fuel with
  | O => mret (chunk, changes, todo)
  | S fuel' =>
      match chunk !! index with
      | None => mret (chunk, changes, todo)
      | Some line =>
          r ← catch_todo (S (List.length todo)) 0 line index chunk changes todo;
          let '(chunk, changes, todo) := r in
          catch_up fuel' (S index) chunk changes todo
      end
  end.

(** [press_mainloop(chunk)], returning also the final [todo_list]. *)
Definition press_mainloop_trace (chunk : list string) : M pass_result :=
  r ← first_pass (List.length chunk) 0 chunk 0 [];
  let '(chunk, changes, todo) := r in
  catch_up (List.length chunk) 0 chunk changes todo.

(** [press_mainloop(chunk)]: the chunk it leaves and [changes]. *)
Definition press_mainloop (chunk : list string) : M (list string * nat) :=
  r ← press_mainloop_trace chunk;
  let '(chunk, changes, _) := r in mret (chunk, changes).

(** The loop [while changes: changes = self.press_mainloop(chunk)],
    for at most [fuel] rounds. *)
Fixpoint press_loop (fuel : nat) (chunk : list string) : M (list string) :=
  match fuel with
  | O => out_of_fuel
  | S fuel' =>
      p ← press_mainloop chunk;
      let '(chunk, changes) := p in
      if changes =? 0 then mret chunk else press_loop fuel' chunk
  end.

(** [press(chunk)]. *)
Definition press (fuel : nat) (chunk : list string) : M (list string) :=
  press_loop fuel (map encode_punct_and_digits chunk).

Definition CHUNK_SIZE : nat := 25.

(** The loop of [compress(file)]; [lines] are the successive results of
    [file.readline()] before the empty string that ends the file. *)
Fixpoint compress_loop (fuel : nat) (lines : list string) (chunk : list string)
    (line_counter : nat) : M unit :=
  match lines with
  | [] => mret tt
  | line :: rest =>
      if String.eqb line EmptyString then mret tt
      else
        let line_counter := S line_counter in
        let chunk := chunk ++ [line] in
        if CHUNK_SIZE <=? line_counter then
          pressed ← press fuel chunk;
          _ ← modify (set_compressed_output (fun o => o ++ pressed));
          compress_loop fuel rest [] 0
        else compress_loop fuel rest chunk line_counter
  end.

(** [compress(file)]: returns [self.compressed_output]. *)
Definition compress (fuel : nat) (lines : list string) : M (list string) :=
  _ ← modify (set_compressed_output (fun _ => []));
  _ ← compress_loop fuel lines [] 0;
  st ← get; mret (compressed_output st).

Fixpoint cat_body (lines : list string) : M (list string) :=
  match lines with
  | [] => mret []
  | line :: rest =>
      let '(body, trailer) := split_trailer line in
      p ← apply_regexes body;
      let out := (sol (rstrip (los p.1)) ++ trailer)%string in
      outs ← cat_body rest;
      mret (out :: outs)
  end.

Definition expressions_header : string :=
  String nl ("## EXPRESSIONS ##" ++ String nl EmptyString)%string.

(** [cat_lines()], its yields collected in a list. *)
Definition cat_lines : M (list string) :=
  st ← get;
  body ← cat_body (compressed_output st);
  st ← get;
  mret (body ++ [expressions_header; sol (join (los ", ") (map (fun kv => los kv.1) (expressions st)))]).

(** A compressor created, [compress] run on a file, then [cat_lines]. *)
Definition run (fuel : nat) (lines : list string) : outcome (list string) :=
  (_ ← compress fuel lines; cat_lines) init_state.

(** What a computation returns, its final state forgotten; [None] when
    it ran out of fuel. *)
Definition result {A} (o : outcome A) : option (exn + A) :=
  match o with Done a _ => Some (inr a) | Raised e => Some (inl e) | OutOfFuel => None end.

(** A sequence of [gen_regex] calls, one per pair of words. *)
Fixpoint gen_regexes (pairs : list (string * string)) : M unit :=
  match pairs with
  | [] => mret tt
  | (a, b) :: pairs' => _ ← gen_regex a b; gen_regexes pairs'
  end.

(** The rules of [expressions] whose key is [k]. *)
Definition entries_for (k : string) (st : state) : list (string * RegExTuple) :=
  List.filter (fun kv => String.eqb kv.1 k) (expressions st).

(** The number of space characters in a window. *)
Definition space_count (chunk : list string) : nat :=
  sum_list_with (fun line => List.length (List.filter (fun c => Ascii.eqb c " "%char) (los line))) chunk.

(** The phrase [gen_regex] builds from the pair of words [a], [b]. *)
Definition key_of (a b : string) : string := (a ++ " " ++ b)%string.

End Compressor.

(* ================================================================= *)
(** ** The counter as the specification words it

    Digits are held most significant first, as they are written; [next]
    increments the last (least significant) digit, carries towards the
    front, and on a carry past the first digit resets every digit and adds
    one holding the first symbol. Compared with [Token] in [TokenFacts]. *)

Module SpecCounter.
Local Open Scope list_scope.

Definition next_digits (ds : list nat) : list nat :=
  let '(r, c) := Token.incr_msb ds in if c then 0 :: r else r.

Definition token (ds : list nat) : string :=
  "<" ++ string_of_list_ascii (map Token.char_of ds) ++ ">".

Fixpoint iter (k : nat) (ds : list nat) : list nat :=
  match k with O => ds | S k' => next_digits (iter k' ds) end.

End SpecCounter.

(* ================================================================= *)
(** ** [PhraseNode] with its subnodes, and [press_duplicate_lines] *)

Module PhraseGraph.
Local Open Scope list_scope.

(** A [__PhraseNode]: its [parents] counts and the words of its [nd_]
    attributes, in the order they were set (the order of [__dict__]). *)
Record node : Type := mkNode { parents : gmap string nat; subnodes : list string }.

(** [PhraseNode.phrases]. *)
Abbreviation graph := (gmap string node).

Definition node_of (g : graph) (w : string) : node := default (mkNode ∅ []) (g !! w).

(** [PhraseNode(word)]: the registered node, or a new one. *)
Definition phrase_node (w : string) (g : graph) : graph :=
  match g !! w with Some _ => g | None => <[w := mkNode ∅ []]> g end.

(** [self.add_node(node)], [self] the node of [self_w] and [node] that of
    [node_w] (the same node when the words are equal). Returns
    [node.parents[self._root]]. *)
Definition add_node (self_w node_w : string) (g : graph) : nat * graph :=
  let s := node_of g self_w in
  let g := if bool_decide (node_w ∈ subnodes s) then g
           else <[self_w := mkNode (parents s) (subnodes s ++ [node_w])]> g in
  let n := node_of g node_w in
  let c := match parents n !! self_w with Some k => k + 1 | None => 1 end in
  (c, <[node_w := mkNode (<[self_w := c]> (parents n)) (subnodes n)]> g).

(** [n.navigate(depth, func, already_visited)] for a [func] that records
    the word of each node it is applied to. [visited] is the set shared by
    the whole recursion; the result is that set and the words [func] saw,
    or [None] when the fuel, a bound on the depth of the recursion, runs
    out. [if depth:] is [depth <> 0]. *)
Fixpoint navigate_in (fuel : nat) (g : graph) (w : string) (depth : Z)
    (visited : gset string) (trace : list string) : option (gset string * list string) :=
  match fuel with
  | O => None
  | S fuel' =>
      let visited := {[ w ]} ∪ visited in
      if Z.eqb depth 0 then Some (visited, trace)
      else
        let tree := List.filter (fun n => negb (bool_decide (n ∈ visited))) (subnodes (node_of g w)) in
        fold_left
          (fun acc n =>
             match acc with
             | Some (v, t) => navigate_in fuel' g n (depth - 1) v t
             | None => None
             end)
          tree (Some (visited, trace ++ tree))
  end.

(** [node.navigate(depth, func)]: [already_visited] starts as [{self._root}]. *)
Definition navigate (fuel : nat) (g : graph) (w : string) (depth : Z) : option (list string) :=
  match navigate_in fuel g w depth ∅ [] with Some (_, t) => Some t | None => None end.

(** Words reachable from [a] by [k] steps along [nd_] attributes. *)
Fixpoint reach (g : graph) (k : nat) (a b : string) : Prop :=
  match k with
  | O => a = b
  | S k' => exists m, m ∈ subnodes (node_of g a) /\ reach g k' m b
  end.

(** The graph after the [nd_] attribute is set, before the counter is. *)
Definition linked (a b : string) (g : graph) : graph :=
  let s := node_of g a in
  if bool_decide (b ∈ subnodes s) then g
  else <[a := mkNode (parents s) (subnodes s ++ [b])]> g.

(** The attributes and the counters agree: [b] is an [nd_] attribute of
    the node of [a] exactly when the node of [b] has a counter
    [parents[a]]; no attribute is listed twice. *)
Definition links_ok (g : graph) : Prop :=
  (forall x y, y ∈ subnodes (node_of g x) <-> is_Some (parents (node_of g y) !! x)) /\
  (forall x, NoDup (subnodes (node_of g x))).

End PhraseGraph.

Module DupLines.
Import Text Compressor.
Local Open Scope list_scope.

(** What [print] shows: a header, or the value stored for ['<n1>']. *)
Inductive printed : Type :=
  | PHeader (s : string)
  | PValue (v : list (nat * string)).

Inductive dup_result : Type :=
  | DupReturned (out : list printed)
  | DupKeyError (key : string).

(** The loop of [press_duplicate_lines(self, chunk)], over
    [enumerate(chunk)], then [print(lines['<n1>'])]. *)
Fixpoint dup_loop (chunk : list string) (linenum : nat)
    (lines : gmap string (list (nat * string))) (out : list printed) : dup_result :=
  match chunk with
  | [] =>
      match lines !! "<n1>" with
      | Some v => DupReturned (out ++ [PValue v])
      | None => DupKeyError "<n1>"
      end
  | line :: rest =>
      let '(header, trailer) := split_trailer line in
      let '(lines, out) :=
        match lines !! header with
        | Some _ => (lines, out)
        | None => (<[line := []]> lines, out ++ [PHeader header])
        end in
      match lines !! header with
      | Some v => dup_loop rest (S linenum) (<[header := v ++ [(linenum, trailer)]]> lines) out
      | None => DupKeyError header
      end
  end.

Definition press_duplicate_lines (chunk : list string) : dup_result := dup_loop chunk 0 ∅ [].

End DupLines.

(* ================================================================= *)
(** ** Descriptions used in proofs *)

Module Devices.
Import Text.
Local Open Scope nat_scope.
Local Open Scope list_scope.

(** The space characters of a string. *)
Definition spaces_l (l : list ascii) : nat := List.length (List.filter (fun c => Ascii.eqb c " "%char) l).
Definition spaces (s : string) : nat := spaces_l (los s).

(** The line with each maximal run of class characters replaced by one
    ['#']; [inrun] as in [encode_run]. *)
Fixpoint abstract_runs (l : list ascii) (inrun : bool) : list ascii :=
  match l with
  | [] => []
  | c :: l' =>
      if in_class c then (if inrun then [] else ["#"%char]) ++ abstract_runs l' true
      else c :: abstract_runs l' false
  end.

(** The maximal runs of class characters, in order; [cur] is the run
    being read, reversed. *)
Fixpoint class_runs_aux (l cur : list ascii) : list (list ascii) :=
  match l with
  | [] => match cur with [] => [] | _ => [rev cur] end
  | c :: l' =>
      if in_class c then class_runs_aux l' (c :: cur)
      else match cur with [] => [] | _ => [rev cur] end ++ class_runs_aux l' []
  end.

Definition class_runs (l : list ascii) : list (list ascii) := class_runs_aux l [].

(** The runs put back in place of the ['#']s of a body, in order. *)
Fixpoint fill (body : list ascii) (runs : list (list ascii)) : list ascii :=
  match body with
  | [] => []
  | c :: body' =>
      if Ascii.eqb c "#"%char then
        match runs with
        | r :: runs' => r ++ fill body' runs'
        | [] => c :: fill body' []
        end
      else c :: fill body' runs
  end.

(** The items of a trailer [' {...}']: the words between the braces. *)
Definition trailer_items (t : string) : list (list ascii) :=
  map los (py_split (sol (removelast (drop 2 (los t))))).

(** The longest prefix of class characters, and the rest. *)
Fixpoint class_span (l : list ascii) : list ascii * list ascii :=
  match l with
  | [] => ([], [])
  | c :: l' => if in_class c then let '(r, rest) := class_span l' in (c :: r, rest) else ([], l)
  end.

(** Whether a space is directly followed by an opening brace. *)
Fixpoint sp_brace (l : list ascii) : bool :=
  match l with
  | a :: ((b :: _) as l') => (Ascii.eqb a " "%char && Ascii.eqb b "{"%char) || sp_brace l'
  | _ => false
  end.

End Devices.

(* ================================================================= *)
(** ** State invariants of the compressor *)

Module Invariants.
Import Text Compressor.
Local Open Scope list_scope.

(** A computation keeps [P]: from a state satisfying [P], every state it
    completes in satisfies [P]. *)
Definition preserves (P : state -> Prop) {A} (m : M A) : Prop :=
  forall st a st', P st -> m st = Done a st' -> P st'.

Definition out_is (o : list string) (st : state) : Prop := compressed_output st = o.

(** The rule table [self._expressions] with the token generator: the
    generator has made one token per rule, the [i]-th rule (from 0) has the
    [i+1]-th token; the keys are distinct; each rule replaces its own key,
    with itself as the pattern, and the key is a phrase [a b] whose count
    [parents[a]] in the node of [b] is at least 5. *)
Definition rules_ok (st : state) : Prop :=
  token_gen st = Token.iter (List.length (expressions st)) Token.init /\
  NoDup (map fst (expressions st)) /\
  (forall i k r, expressions st !! i = Some (k, r) ->
     token r = Token.token (Token.iter (S i) Token.init) /\
     replaces r = k /\ regex r = k /\
     exists a b c, k = key_of a b /\ parents_of st b !! a = Some c /\ 5 <= c).

(** Counts of the phrase table never go away or go down. *)
Definition grows (st st' : state) : Prop :=
  forall a b c, parents_of st b !! a = Some c ->
    exists c', parents_of st' b !! a = Some c' /\ c <= c'.

End Invariants.

(* ================================================================= *)
(** ** Proofs about the token allocator *)

Module TokenFacts.
Import Token.
Local Open Scope list_scope.

Lemma length_chars : List.length chars = 62.
Proof. reflexivity. Qed.

Lemma gen_next_S (d : nat) :
  gen_next (S d) = if (d <? 61)%nat then Some (S d, S (S d)) else None.
Proof.
  unfold gen_next. rewrite length_chars.
  destruct (Nat.ltb_spec (S d) 62), (Nat.ltb_spec d 61); try reflexivity; lia.
Qed.

Lemma insert_mid (l1 l2 : list nat) (y x : nat) :
  <[List.length l1 := x]> (l1 ++ y :: l2) = l1 ++ x :: l2.
Proof.
  replace (List.length l1) with (List.length l1 + 0) by lia.
  rewrite insert_app_r. reflexivity.
Qed.

Lemma insert_fmap_S (ds : list nat) (i y : nat) :
  <[i := S y]> (S <$> ds) = S <$> <[i := y]> ds.
Proof. by rewrite list_fmap_insert. Qed.

Lemma nth_fmap_S (l1 l2 : list nat) (x d : nat) :
  nth (List.length l1) (S <$> (l1 ++ x :: l2)) d = S x.
Proof.
  rewrite fmap_app, fmap_cons.
  rewrite app_nth2; rewrite length_fmap; [|lia].
  rewrite Nat.sub_diag. reflexivity.
Qed.

Lemma incr_msb_snoc (l : list nat) (x : nat) :
  incr_msb (l ++ [x]) =
  if (x <? 61)%nat then (l ++ [S x], false)
  else let '(r, c) := incr_msb l in (r ++ [0], c).
Proof.
  unfold incr_msb. rewrite rev_app_distr. simpl.
  destruct (x <? 61)%nat.
  - simpl. by rewrite rev_involutive.
  - destruct (incr_lsb (rev l)) as [r c]. reflexivity.
Qed.

(** The carry part of the loop, at Python index [-(k+1)], after the
    [k] last positions and position 0 have been reset. *)
Lemma loop_carry (pre : list nat) :
  pre <> [] ->
  forall (k fuel : nat), List.length pre <= fuel ->
  next_loop fuel (- Z.of_nat (S k)) (mkw (0 :: pre ++ replicate k 0)) =
  let '(r, c) := incr_msb pre in
  if c then mkw (0 :: r ++ replicate k 0 ++ [0]) else mkw (0 :: r ++ replicate k 0).
Proof.
  induction pre as [|x pre0 IH] using rev_ind; [congruence|].
  intros _ k fuel Hfuel.
  rewrite length_app in Hfuel. simpl in Hfuel.
  destruct fuel as [|fuel']; [lia|].
  rewrite incr_msb_snoc.
  set (ds := 0 :: pre0 ++ x :: replicate k 0).
  assert (Hds : 0 :: (pre0 ++ [x]) ++ replicate k 0 = ds)
    by (subst ds; by rewrite <- app_assoc).
  rewrite Hds.
  assert (Hlen : List.length ds = S (List.length pre0) + S k)
    by (subst ds; simpl; rewrite length_app; simpl; rewrite length_replicate; lia).
  assert (Hi : py_index (List.length ds) (- Z.of_nat (S k)) = List.length (0 :: pre0)).
  { unfold py_index. rewrite Hlen. simpl. destruct (Z.ltb_spec (- Z.of_nat (S k)) 0); lia. }
  cbn [next_loop].
  change (digits (mkw ds)) with ds. change (generators (mkw ds)) with (S <$> ds).
  destruct (Z.ltb_spec (- Z.of_nat (List.length ds)) (- Z.of_nat (S k))) as [_|Hc];
    [|rewrite Hlen in Hc; lia].
  rewrite Hi, Hlen.
  change ds with ((0 :: pre0) ++ x :: replicate k 0).
  rewrite nth_fmap_S, gen_next_S.
  destruct (Nat.ltb_spec x 61) as [Hx|Hx].
  - rewrite insert_fmap_S, !insert_mid.
    unfold mkw. f_equal; simpl; by rewrite <- app_assoc.
  - destruct (Z.eqb_spec (- Z.of_nat (S k) - 1) (- Z.of_nat (S (List.length pre0) + S k))) as [He|He].
    + destruct pre0; [|simpl in He; lia].
      unfold fresh_next, gen_next, get_gen, mkw. rewrite length_chars. cbn.
      rewrite fmap_app. reflexivity.
    + destruct pre0 as [|y pre1]; [simpl in He; lia|].
      replace (- Z.of_nat (S k) - 1)%Z with (- Z.of_nat (S (S k)))%Z by lia.
      unfold fresh_next, gen_next, get_gen. rewrite length_chars. simpl.
      change 1 with (S 0). rewrite insert_fmap_S.
      change (0 :: y :: pre1 ++ x :: replicate k 0) with ((0 :: y :: pre1) ++ x :: replicate k 0).
      rewrite insert_mid.
      match goal with |- next_loop _ _ ?st = _ =>
        replace st with (mkw (0 :: (y :: pre1) ++ replicate (S k) 0)) by reflexivity end.
      rewrite IH by (simpl in *; lia || congruence).
      destruct (incr_msb (y :: pre1)) as [r c].
      rewrite replicate_S. rewrite <- !app_assoc. reflexivity.
Qed.

Lemma next_loop_spec (s : t) :
  wf s -> next_loop (S (List.length (digits s))) 0 s = mkw (next_spec (digits s)).
Proof.
  intros (Hlen & _ & Hg). destruct s as [ds gs]. simpl in *. subst gs.
  destruct ds as [|d0 rest]; [simpl in Hlen; lia|].
  cbn [next_loop digits generators].
  destruct (Z.ltb_spec (- Z.of_nat (List.length (d0 :: rest))) 0) as [_|Hc];
    [|simpl in Hc; lia].
  replace (py_index (List.length (d0 :: rest)) 0) with 0 by reflexivity.
  cbn [nth fmap list_fmap]. rewrite gen_next_S.
  unfold next_spec. destruct (Nat.ltb_spec d0 61) as [Hd|Hd].
  - reflexivity.
  - destruct rest as [|r0 rest']; [reflexivity|].
    assert (Hc : match (- Z.of_nat (List.length (d0 :: r0 :: rest')))%Z with
                 | Z.neg q => (1 =? q)%positive | _ => false end = false).
    { change (Z.eqb (-1) (- Z.of_nat (List.length (d0 :: r0 :: rest'))) = false).
      apply Z.eqb_neq. simpl. lia. }
    rewrite Hc.
    pose proof (loop_carry (r0 :: rest') ltac:(congruence) 0
                  (List.length (d0 :: r0 :: rest')) ltac:(simpl; lia)) as HL.
    rewrite app_nil_r in HL.
    replace (0 - 1)%Z with (- Z.of_nat 1)%Z by reflexivity.
    match goal with |- next_loop _ _ ?st = _ =>
      replace st with (mkw (0 :: r0 :: rest')) by reflexivity end.
    rewrite HL.
    destruct (incr_msb (r0 :: rest')) as [r c]. destruct c; by rewrite ?app_nil_r.
Qed.

Lemma msb_snoc (l : list nat) (x : nat) : msb (l ++ [x]) = 62 * msb l + x.
Proof.
  induction l as [|d l IH]; simpl; [lia|].
  rewrite IH, length_app. simpl. rewrite Nat.add_1_r, Nat.pow_succ_r'. lia.
Qed.

Lemma msb_lsb (l : list nat) : msb l = lsb (rev l).
Proof.
  induction l as [|x l IH] using rev_ind; [reflexivity|].
  rewrite msb_snoc, rev_app_distr. simpl. lia.
Qed.

Lemma msb_zeros (n : nat) : msb (replicate n 0) = 0.
Proof. induction n; simpl; lia. Qed.

Lemma incr_lsb_spec (l : list nat) :
  Forall (fun d => d < 62) l ->
  let '(l', c) := incr_lsb l in
  Forall (fun d => d < 62) l' /\
  if c then l' = replicate (List.length l) 0 /\ S (lsb l) = 62 ^ List.length l
  else List.length l' = List.length l /\ lsb l' = S (lsb l).
Proof.
  induction l as [|d l IH]; intros Hf.
  { simpl. split; [constructor | split; reflexivity]. }
  apply Forall_cons in Hf as [Hd Hf].
  cbn [incr_lsb].
  destruct (Nat.ltb_spec d 61).
  - split; [constructor; [lia | done] |]. cbn [lsb List.length]. split; [reflexivity | lia].
  - specialize (IH Hf). destruct (incr_lsb l) as [l' c]. destruct IH as [Hf' IH].
    split; [constructor; [lia | done]|].
    destruct c; destruct IH as [H1 H2]; cbn [lsb List.length replicate].
    + subst l'. split; [reflexivity|]. rewrite Nat.pow_succ_r'. lia.
    + split; lia.
Qed.

Lemma rev_replicate_nat (n x : nat) : rev (replicate n x) = replicate n x.
Proof.
  induction n as [|n IH]; [reflexivity|].
  simpl. rewrite IH. symmetry. apply replicate_S_end.
Qed.

Lemma incr_msb_spec (l : list nat) :
  Forall (fun d => d < 62) l ->
  let '(l', c) := incr_msb l in
  Forall (fun d => d < 62) l' /\
  if c then l' = replicate (List.length l) 0 /\ S (msb l) = 62 ^ List.length l
  else List.length l' = List.length l /\ msb l' = S (msb l).
Proof.
  intros Hf. unfold incr_msb.
  assert (Hr : Forall (fun d => d < 62) (rev l)) by (apply Forall_rev; done).
  pose proof (incr_lsb_spec (rev l) Hr) as H.
  destruct (incr_lsb (rev l)) as [r c]. destruct H as [Hf' H].
  rewrite length_rev in H. rewrite msb_lsb.
  split; [apply Forall_rev; done|].
  destruct c; destruct H as [H1 H2].
  - subst r. rewrite rev_replicate_nat. split; [reflexivity | done].
  - rewrite msb_lsb, rev_involutive, length_rev. split; [done | done].
Qed.

(** One call of [next] adds one to the rank and keeps the state well formed. *)
Lemma next_rank (s : t) :
  wf s -> wf (next s).2 /\ rank (next s).2 = S (rank s).
Proof.
  intros Hwf. unfold next. cbn [snd]. rewrite next_loop_spec by done.
  destruct Hwf as (Hlen & Hf & _). destruct s as [ds gs]. simpl in *.
  destruct ds as [|d0 rest]; [simpl in Hlen; lia|].
  apply Forall_cons in Hf as [Hd Hf].
  unfold rank, mkw, wf. simpl digits. simpl generators.
  unfold next_spec. destruct (Nat.ltb_spec d0 61) as [Hlt|Hge].
  - split; [split; [|split]|].
    + cbn [List.length]. lia.
    + constructor; [lia | done].
    + reflexivity.
    + cbn [List.length val]. lia.
  - pose proof (incr_msb_spec rest Hf) as H.
    destruct (incr_msb rest) as [r c]. destruct H as [Hr Hc].
    destruct c; destruct Hc as [H1 H2].
    + subst r. split; [split; [|split]|].
      * cbn [List.length]. lia.
      * constructor; [lia|]. apply Forall_app; split; [done | constructor; [lia | done]].
      * reflexivity.
      * cbn [List.length val]. rewrite length_app, length_replicate, msb_snoc, msb_zeros.
        rewrite Nat.add_1_r. cbn [offset]. rewrite Nat.pow_succ_r'.
        destruct (List.length rest); lia.
    + split; [split; [|split]|].
      * cbn [List.length]. lia.
      * constructor; [lia | done].
      * reflexivity.
      * cbn [List.length val]. rewrite H1, H2. lia.
Qed.

Lemma iter_rank (k : nat) : wf (iter k init) /\ rank (iter k init) = k.
Proof.
  induction k as [|k IH].
  - split; [repeat split; simpl; [lia | repeat constructor; lia] | reflexivity].
  - destruct IH as [Hwf Hr]. cbn [iter]. destruct (next_rank _ Hwf) as [H1 H2].
    split; [done | lia].
Qed.

Lemma NoDup_chars : NoDup chars.
Proof. apply (bool_decide_unpack (NoDup chars)). vm_compute. exact I. Qed.

Lemma char_of_inj (d1 d2 : nat) :
  d1 < 62 -> d2 < 62 -> char_of d1 = char_of d2 -> d1 = d2.
Proof.
  intros H1 H2 He. unfold char_of in He.
  destruct (nth_lookup_or_length chars d1 "0"%char) as [L1|L1];
    [|rewrite length_chars in L1; lia].
  destruct (nth_lookup_or_length chars d2 "0"%char) as [L2|L2];
    [|rewrite length_chars in L2; lia].
  rewrite He in L1. eapply NoDup_lookup; [apply NoDup_chars | exact L1 | exact L2].
Qed.

Lemma map_char_of_inj (l1 l2 : list nat) :
  Forall (fun d => d < 62) l1 -> Forall (fun d => d < 62) l2 ->
  map char_of l1 = map char_of l2 -> l1 = l2.
Proof.
  revert l2. induction l1 as [|a l1 IH]; intros [|b l2] F1 F2 He; try discriminate; [done|].
  simpl in He. injection He as Hab Hl.
  apply Forall_cons in F1 as [Ha F1]. apply Forall_cons in F2 as [Hb F2].
  f_equal; [by apply char_of_inj | by apply IH].
Qed.

Lemma string_snoc_inj (x y : string) (c : ascii) :
  (x ++ String c EmptyString)%string = (y ++ String c EmptyString)%string -> x = y.
Proof.
  revert y. induction x as [|a x IH]; intros [|b y] He; simpl in He.
  - done.
  - injection He as -> He. destruct y; discriminate.
  - injection He as -> He. destruct x; discriminate.
  - injection He as -> He. f_equal. by apply IH.
Qed.

Lemma token_inj (s1 s2 : t) :
  wf s1 -> wf s2 -> token s1 = token s2 -> digits s1 = digits s2.
Proof.
  intros (_ & F1 & _) (_ & F2 & _) He. unfold token in He. simpl in He.
  injection He as He. apply string_snoc_inj in He.
  apply (f_equal list_ascii_of_string) in He.
  rewrite !list_ascii_of_string_of_list_ascii in He.
  by apply map_char_of_inj.
Qed.

Lemma next_token (s : t) : (next s).1 = token (next s).2.
Proof. reflexivity. Qed.

(** The value of [self.digits] after one [next]: one more, or, when every
    position wraps, all zeros with one position more. *)
Lemma next_val (s : t) :
  wf s ->
  (List.length (digits (next s).2) = List.length (digits s) /\
   val (digits (next s).2) = S (val (digits s))) \/
  (digits (next s).2 = replicate (S (List.length (digits s))) 0 /\
   S (val (digits s)) = 62 ^ List.length (digits s)).
Proof.
  intros Hwf. unfold next. cbn [snd]. rewrite next_loop_spec by done.
  destruct Hwf as (Hlen & Hf & _). destruct s as [ds gs]. simpl in *.
  destruct ds as [|d0 rest]; [simpl in Hlen; lia|].
  apply Forall_cons in Hf as [Hd Hf]. unfold mkw. simpl digits.
  unfold next_spec. destruct (Nat.ltb_spec d0 61) as [Hlt|Hge].
  - left. cbn [List.length val]. split; [reflexivity | lia].
  - pose proof (incr_msb_spec rest Hf) as H.
    destruct (incr_msb rest) as [r c]. destruct H as [Hr Hc].
    destruct c; destruct Hc as [H1 H2].
    + right. subst r. split.
      * cbn [List.length]. by rewrite <- replicate_S_end.
      * cbn [List.length val]. rewrite Nat.pow_succ_r'. lia.
    + left. cbn [List.length val]. rewrite H1, H2. split; [reflexivity | lia].
Qed.

End TokenFacts.

(* ================================================================= *)
(** ** The pipeline on concrete inputs *)

Module PipelineFacts.
Import Text Compressor.
Local Open Scope list_scope.

(** C2: a line with a trailer loses it. The line ["a 1"] has the trailer
    [" {1}"] after encoding, yet a file of 25 such lines comes out of
    [compress] and [cat_lines] as 25 lines ["<1>"] with no trailer: the
    first pass stores the rule-applied body in the chunk and never adds the
    trailer back ([line = line + trailer] assigns a local that is unused). *)
Theorem trailer_dropped_by_press (fuel : nat) :
  split_trailer (encode_punct_and_digits (line_of "a 1")) = ("a #", " {1}") /\
  result (run (2 + fuel) (repeat (line_of "a 1") 25)) =
    Some (inr (repeat "<1>" 25 ++ [expressions_header; "a #"])).
Proof. split; vm_compute; reflexivity. Qed.

(** C3 (as the code behaves): the encoder wraps the braces and the equals
    sign as punctuation, so [split_trailer] sees no brace trailer; the
    trailer holds the encoded runs ["404"], ["{"] and ["=1}"], and the body
    abstracts all three runs to [#]. The trailer contains ["404"]. *)
Theorem encoded_error_line_split :
  encode_punct_and_digits "Error 404 occurred {session=1}" =
    "Error _$_404_$_ occurred _$_{_$_session_$_=1}_$_" /\
  split_trailer (encode_punct_and_digits "Error 404 occurred {session=1}") =
    ("Error # occurred #session#", " {404 { =1}}") /\
  py_in "404" (split_trailer (encode_punct_and_digits "Error 404 occurred {session=1}")).2 = true.
Proof. vm_compute. repeat split. Qed.

(** C3: the trailer of that line does not contain ["session=1"]. *)
Lemma encoded_error_line_loses_session :
  py_in "session=1" (split_trailer (encode_punct_and_digits "Error 404 occurred {session=1}")).2 = false.
Proof. vm_compute. reflexivity. Qed.

(** C4: one pass over 25 lines ["a b c d"]. Three rules are made at line
    4. The catch-up applies each rule to the line as it was before the
    catch-up and stores only the last result, so lines 0 to 4 end as
    ["a b <3>"], which still holds the phrase of the rule ["a b"]; and no
    entry leaves the list, as its position (0, 1, 2) never equals its
    origin line (4). *)
Theorem catch_up_keeps_last_rule_only :
  result (press_mainloop_trace (map encode_punct_and_digits (repeat (line_of "a b c d") 25))
            init_state) =
    Some (inr (repeat "a b <3>" 5 ++ repeat "<1> <3>" 20, 55,
               [(mkRegExTuple "a b" "a b" "<1>", 4); (mkRegExTuple "b c" "b c" "<2>", 4);
                (mkRegExTuple "c d" "c d" "<3>", 4)])) /\
  py_in "a b" "a b <3>" = true.
Proof. split; vm_compute; reflexivity. Qed.

(** C5: one pass over 25 lines ["a b"]. The rule ["a b" -> "<1>"] is made
    at line 4, and lines 5 to 24 become ["<1>"], yet the graph records the
    pair [a b] 25 times and never sees the word ["<1>"]: [map_nodes] walks
    the body as it was before the rules ran. *)
Theorem map_nodes_walks_unsubstituted_body :
  match press_mainloop (map encode_punct_and_digits (repeat (line_of "a b") 25)) init_state with
  | Done (chunk, changes) st =>
      chunk = repeat "<1>" 25 /\ changes = 25 /\
      parents_of st "b" !! "a" = Some 25 /\ phrases st !! "<1>" = None
  | _ => False
  end.
Proof. vm_compute. repeat split. Qed.

(** C6: a text file of 25 lines ["x y\"] (a trailing backslash): the rule
    for the phrase ["x y\"] is made at line 4, and at line 5 applying it
    raises [re.error]: the phrase, unescaped, is not a valid pattern. *)
Theorem trailing_backslash_raises (fuel : nat) :
  result (run (S fuel) (repeat (line_of "x y\") 25)) =
    Some (inl (ReError "bad escape (end of pattern)")).
Proof. vm_compute. reflexivity. Qed.

(** C10: a window of 5 lines ["c d"], 5 lines ["a  b"] (two spaces) and
    15 lines ["z"]. The first pass reports 5 substitutions, but the window
    it leaves (the lines without their newlines) has the same 15 spaces: the catch-up stores the result of
    the rule ["a b"], which does not match, over that of ["c d"]. The loop
    of [press] still ends here, after three passes. *)
Theorem pass_counts_changes_it_undoes (fuel : nat) :
  let w := map encode_punct_and_digits
             (repeat (line_of "c d") 5 ++ repeat (line_of "a  b") 5 ++ repeat (line_of "z") 15) in
  space_count w = 15 /\
  match press_mainloop w init_state with
  | Done (chunk, changes) _ =>
      changes = 5 /\ chunk = repeat "c d" 5 ++ repeat "a  b" 5 ++ repeat "z" 15 /\
      space_count chunk = 15
  | _ => False
  end /\
  result (press_loop (3 + fuel) w init_state) =
    Some (inr (repeat "<1>" 5 ++ repeat "a  b" 5 ++ repeat "z" 15)) /\
  result (press_loop 2 w init_state) = None.
Proof. vm_compute. repeat split. Qed.

End PipelineFacts.

(* ================================================================= *)
(** ** [compress] on a file shorter than a window *)

Module CompressFacts.
Import Text Compressor.
Local Open Scope list_scope.

(** With fewer than [CHUNK_SIZE] lines left before the counter reaches
    it, the loop of [compress] never presses and changes nothing. *)
Lemma compress_loop_short (fuel : nat) (lines chunk : list string) (counter : nat) (st : state) :
  counter + List.length lines < CHUNK_SIZE ->
  compress_loop fuel lines chunk counter st = Done tt st.
Proof.
  revert chunk counter. induction lines as [|line rest IH]; intros chunk counter H; [reflexivity|].
  cbn [compress_loop]. destruct (String.eqb line EmptyString); [reflexivity|].
  cbn [List.length] in H. unfold CHUNK_SIZE in *.
  destruct (Nat.leb_spec 25 (S counter)) as [Hc|Hc]; [lia|].
  apply IH. unfold CHUNK_SIZE. lia.
Qed.

(** C1: a file of fewer than 25 lines yields no compressed line at all:
    the output is only the header line and the (empty) list of phrases.
    The last, partial window is never pressed nor appended. *)
Theorem short_file_yields_no_lines (fuel : nat) (lines : list string) :
  List.length lines < CHUNK_SIZE ->
  result (run fuel lines) = Some (inr [expressions_header; EmptyString]).
Proof.
  intros H. cbv [run compress mbind M_bind modify get mret M_ret].
  rewrite compress_loop_short by (cbn; lia).
  vm_compute. reflexivity.
Qed.

Lemma short_file_yields_no_lines_witness :
  List.length [line_of "hello"] < CHUNK_SIZE /\
  result (run 10 [line_of "hello"]) = Some (inr [expressions_header; EmptyString]).
Proof.
  split; [unfold CHUNK_SIZE; cbn; lia|].
  apply (short_file_yields_no_lines 10 [line_of "hello"]). unfold CHUNK_SIZE. cbn. lia.
Defined.

End CompressFacts.

(* ================================================================= *)
(** ** The token allocator against its description *)

Module TokenClaims.
Import Token TokenFacts.
Local Open Scope list_scope.

(** C7 (as the code behaves): [next] is a mixed-radix counter over the 62
    symbols, but the significance of the positions of [self.digits] is not
    the written order. Position 0, the first symbol written, is the least
    significant; a carry moves to the last position, then towards position
    1, the most significant ([val]); a carry out of position 1 resets every
    position and appends one. The token writes the positions in list order. *)
Theorem next_is_counter_in_list_order (s : t) :
  wf s ->
  (next s).2 = mkw (next_spec (digits s)) /\
  wf (next s).2 /\
  (next s).1 = ("<" ++ string_of_list_ascii (map char_of (digits (next s).2)) ++ ">")%string /\
  ((List.length (digits (next s).2) = List.length (digits s) /\
    val (digits (next s).2) = S (val (digits s))) \/
   (digits (next s).2 = replicate (S (List.length (digits s))) 0 /\
    S (val (digits s)) = 62 ^ List.length (digits s))).
Proof.
  intros Hwf. destruct (next_rank s Hwf) as [Hw _].
  split; [unfold next; cbn [snd]; by apply next_loop_spec|].
  split; [done|]. split; [reflexivity|].
  by apply next_val.
Qed.

Lemma next_is_counter_in_list_order_witness :
  wf (mkw [61; 61]) /\ (next (mkw [61; 61])).2 = mkw [0; 0; 0].
Proof.
  assert (Hw : wf (mkw [61; 61])).
  { split; [cbn; lia|]. split; [repeat constructor | reflexivity]. }
  split; [exact Hw|].
  destruct (next_is_counter_in_list_order (mkw [61; 61]) Hw) as [He _].
  rewrite He. reflexivity.
Defined.

(** C7: the 64th token is ["<10>"]; a counter that writes its most
    significant digit first, as described, gives ["<01>"]. *)
Lemma token_64_not_msb_first :
  Token.token (Token.iter 63 Token.init) = "<10>" /\
  SpecCounter.token (SpecCounter.iter 63 [0]) = "<01>".
Proof. split; vm_compute; reflexivity. Qed.

(** C8: a fresh allocator reads ["<0>"], its first [next] returns ["<1>"],
    which [current] then reads; the tokens returned by the [i]-th and
    [j]-th calls of [next] differ for all [i <> j]; and [current] neither
    changes the state nor returns a different value when called again. *)
Theorem token_allocator_fresh_distinct (i j : nat) :
  i <> j ->
  current init = ("<0>", init) /\
  (next init).1 = "<1>" /\ (current (next init).2).1 = "<1>" /\
  (next (iter i init)).1 <> (next (iter j init)).1 /\
  (forall s, (current s).2 = s /\ (current (current s).2).1 = (current s).1).
Proof.
  intros Hij. split; [reflexivity|]. split; [reflexivity|]. split; [reflexivity|].
  split; [|intros s; split; reflexivity].
  intros He. rewrite !next_token in He.
  destruct (iter_rank (S i)) as [Hi Ri]. destruct (iter_rank (S j)) as [Hj Rj].
  cbn [iter] in Hi, Ri, Hj, Rj.
  apply token_inj in He; [|done|done].
  unfold rank in Ri, Rj. rewrite He in Ri. lia.
Qed.

Lemma token_allocator_fresh_distinct_witness :
  0 <> (100 * 1000) /\ (next (iter 0 init)).1 <> (next (iter (100 * 1000) init)).1.
Proof.
  assert (Hij : 0 <> (100 * 1000)) by lia.
  split; [exact Hij|].
  destruct (token_allocator_fresh_distinct 0 (100 * 1000) Hij) as (_ & _ & _ & H & _).
  exact H.
Defined.

End TokenClaims.

(* ================================================================= *)
(** ** Rule induction *)

Module RuleFacts.
Import Text Compressor.
Local Open Scope list_scope.

Lemma gen_regex_present (a b : string) (st : state) :
  assoc_mem (key_of a b) (expressions st) = true -> gen_regex a b st = Done None st.
Proof. intros H. cbv [gen_regex mbind M_bind get mret M_ret]. unfold key_of in H. by rewrite H. Qed.

Lemma gen_regex_absent (a b : string) (st : state) :
  assoc_mem (key_of a b) (expressions st) = false ->
  exists r tg, gen_regex a b st =
    Done (Some r) (set_token_gen tg (set_expressions (fun e => e ++ [(key_of a b, r)]) st)).
Proof.
  intros H. cbv [gen_regex mbind M_bind get mret M_ret modify]. unfold key_of in H. rewrite H.
  destruct (Token.next (token_gen st)) as [tk tg]. eexists _, _. reflexivity.
Qed.

Lemma assoc_mem_count (k : string) (l : list (string * RegExTuple)) :
  assoc_mem k l = false <-> List.length (List.filter (fun kv => String.eqb kv.1 k) l) = 0.
Proof.
  induction l as [|[k' v] l IH]; [done|]. cbn [assoc_mem List.filter fst].
  rewrite (String.eqb_sym k' k). destruct (String.eqb k k'); cbn; [split; discriminate | done].
Qed.

Lemma entries_for_append (k k' : string) (r : RegExTuple) (st : state) (tg : Token.t) :
  entries_for k (set_token_gen tg (set_expressions (fun e => e ++ [(k', r)]) st)) =
  entries_for k st ++ (if String.eqb k' k then [(k', r)] else []).
Proof. unfold entries_for. cbn. rewrite List.filter_app. cbn. by destruct (String.eqb k' k). Qed.

Lemma assoc_mem_app (k : string) (l1 l2 : list (string * RegExTuple)) :
  assoc_mem k (l1 ++ l2) = assoc_mem k l1 || assoc_mem k l2.
Proof. induction l1 as [|[k' v] l1 IH]; [done|]. cbn. rewrite IH. by rewrite orb_assoc. Qed.

(** Once the phrase [k] has a rule, a call of [gen_regex] succeeds and
    leaves the rules for [k] as they were. *)
Lemma gen_regex_keeps (a b k : string) (st : state) :
  assoc_mem k (expressions st) = true ->
  exists r st', gen_regex a b st = Done r st' /\
    entries_for k st' = entries_for k st /\ assoc_mem k (expressions st') = true.
Proof.
  intros Hk. destruct (assoc_mem (key_of a b) (expressions st)) eqn:Hab.
  - exists None, st. by rewrite gen_regex_present.
  - destruct (gen_regex_absent a b st Hab) as (r & tg & Hg).
    eexists _, _. split; [exact Hg|]. split.
    + rewrite entries_for_append. destruct (String.eqb_spec (key_of a b) k) as [Heq|_].
      * rewrite Heq in Hab. congruence.
      * by rewrite app_nil_r.
    + cbn. by rewrite assoc_mem_app, Hk.
Qed.

Lemma gen_regexes_keeps (pairs : list (string * string)) (k : string) (st : state) :
  assoc_mem k (expressions st) = true ->
  exists st', gen_regexes pairs st = Done tt st' /\
    entries_for k st' = entries_for k st /\ assoc_mem k (expressions st') = true.
Proof.
  revert st. induction pairs as [|[a b] pairs IH]; intros st Hk; [by exists st|].
  destruct (gen_regex_keeps a b k st Hk) as (r & st1 & Hg & He1 & Hk1).
  destruct (IH st1 Hk1) as (st2 & Hs & He2 & Hk2).
  exists st2. cbn [gen_regexes]. cbv [mbind M_bind]. rewrite Hg.
  split; [exact Hs|]. split; [congruence | exact Hk2].
Qed.

(** C9: from a state with at most one rule for the phrase [w1 w2],
    inducing it, then any other inductions, then inducing it again: the
    second call returns no rule and leaves the state, and so the token
    allocator, untouched, and the table holds exactly one rule for it. *)
Theorem gen_regex_once_per_phrase (w1 w2 : string) (between : list (string * string)) (st : state) :
  List.length (entries_for (w1 ++ " " ++ w2) st) <= 1 ->
  exists r1 st1 st2,
    gen_regex w1 w2 st = Done r1 st1 /\
    gen_regexes between st1 = Done tt st2 /\
    gen_regex w1 w2 st2 = Done None st2 /\
    List.length (entries_for (w1 ++ " " ++ w2) st2) = 1.
Proof.
  intros Hle. fold (key_of w1 w2) in *.
  assert (Hst1 : exists r1 st1, gen_regex w1 w2 st = Done r1 st1 /\
            List.length (entries_for (key_of w1 w2) st1) = 1 /\
            assoc_mem (key_of w1 w2) (expressions st1) = true).
  { destruct (assoc_mem (key_of w1 w2) (expressions st)) eqn:Hm.
    - exists None, st. rewrite gen_regex_present by done. split; [done|]. split; [|done].
      destruct (List.length (entries_for (key_of w1 w2) st)) eqn:E; [|lia].
      apply assoc_mem_count in E. congruence.
    - destruct (gen_regex_absent w1 w2 st Hm) as (r & tg & Hg).
      eexists _, _. split; [exact Hg|]. split.
      + rewrite entries_for_append, String.eqb_refl, length_app.
        apply assoc_mem_count in Hm. unfold entries_for in *. cbn. lia.
      + cbn. rewrite assoc_mem_app. cbn. by rewrite String.eqb_refl, orb_true_r. }
  destruct Hst1 as (r1 & st1 & Hg1 & Hc1 & Hm1).
  destruct (gen_regexes_keeps between (key_of w1 w2) st1 Hm1) as (st2 & Hs & He & Hm2).
  exists r1, st1, st2. split; [exact Hg1|]. split; [exact Hs|].
  split; [by apply gen_regex_present | congruence].
Qed.

Lemma gen_regex_once_per_phrase_witness :
  List.length (entries_for ("a" ++ " " ++ "b") init_state) <= 1 /\
  exists r1 st1 st2,
    gen_regex "a" "b" init_state = Done r1 st1 /\
    gen_regexes [("b", "c"); ("a", "b")] st1 = Done tt st2 /\
    gen_regex "a" "b" st2 = Done None st2 /\
    List.length (entries_for ("a" ++ " " ++ "b") st2) = 1.
Proof.
  assert (H : List.length (entries_for ("a" ++ " " ++ "b") init_state) <= 1) by (vm_compute; lia).
  split; [exact H|].
  exact (gen_regex_once_per_phrase "a" "b" [("b", "c"); ("a", "b")] init_state H).
Defined.

End RuleFacts.

(* ================================================================= *)
(** ** Whole runs: what every computation of the compressor keeps *)

Module RunFacts.
Import Text Compressor Invariants.
Local Open Scope list_scope.

Lemma bind_done {A B} (m : M A) (k : A -> M B) (st : state) (b : B) (st' : state) :
  (m ≫= k) st = Done b st' -> exists a st1, m st = Done a st1 /\ k a st1 = Done b st'.
Proof. cbv [mbind M_bind]. destruct (m st) as [a st1| |]; [eauto | discriminate | discriminate]. Qed.

Lemma ret_done {A} (a b : A) (st st' : state) : (mret a : M A) st = Done b st' -> b = a /\ st' = st.
Proof. cbv [mret M_ret]. intros H. by injection H. Qed.

Ltac inv_bind H :=
  let a := fresh "a" in let s := fresh "st" in let H1 := fresh "Hm" in
  apply bind_done in H as (a & s & H1 & H).

Ltac inv_ret H := apply ret_done in H as [? ?]; subst.

(** A property of the state that a computation keeps whenever it ends. *)

Lemma preserves_bind (P : state -> Prop) {A B} (m : M A) (k : A -> M B) :
  preserves P m -> (forall a, preserves P (k a)) -> preserves P (m ≫= k).
Proof.
  intros Hm Hk st b st' HP H. apply bind_done in H as (a & st1 & H1 & H2).
  eapply Hk; [eapply Hm; [exact HP | exact H1] | exact H2].
Qed.

Lemma preserves_ret (P : state -> Prop) {A} (a : A) : preserves P (mret a).
Proof. intros st b st' HP H. by inv_ret H. Qed.

Lemma preserves_get (P : state -> Prop) : preserves P get.
Proof. intros st b st' HP H. cbv [get] in H. by injection H as -> ->. Qed.

Lemma preserves_of_sum (P : state -> Prop) {A} (x : exn + A) : preserves P (of_sum x).
Proof. intros st b st' HP H. destruct x; cbv [of_sum throw mret M_ret] in H; [discriminate|]. by injection H as -> ->. Qed.

Lemma preserves_out_of_fuel (P : state -> Prop) {A} : preserves P (@out_of_fuel A).
Proof. intros st b st' HP H. discriminate. Qed.

Lemma preserves_modify (P : state -> Prop) (f : state -> state) :
  (forall st, P st -> P (f st)) -> preserves P (modify f).
Proof. intros Hf st b st' HP H. cbv [modify] in H. injection H as _ <-. auto. Qed.

Ltac pres :=
  repeat first
    [ apply preserves_bind; [| intros ?]
    | apply preserves_ret | apply preserves_get | apply preserves_of_sum
    | apply preserves_out_of_fuel
    | match goal with |- preserves _ (match ?p with pair _ _ => _ end) => destruct p end
    | match goal with |- preserves _ (if ?b then _ else _) => destruct b end ].

Section Preserved.
Variable P : state -> Prop.
Hypothesis map_words_P : forall ws ln b i todo, preserves P (map_words ws ln b i todo).

Lemma apply_regexes_P (line : string) : preserves P (apply_regexes line).
Proof. unfold apply_regexes. pres. Qed.

Lemma first_pass_P (fuel index : nat) (chunk : list string) (changes : nat) todo :
  preserves P (first_pass fuel index chunk changes todo).
Proof.
  revert index chunk changes todo. induction fuel as [|fuel IH]; intros; cbn [first_pass]; [pres|].
  destruct (chunk !! index); [|pres]. destruct (split_trailer s).
  apply preserves_bind; [apply apply_regexes_P|]. intros [new d].
  apply preserves_bind; [apply map_words_P | intros; apply IH].
Qed.

Lemma catch_todo_P (fuel t : nat) (line : string) (index : nat) (chunk : list string)
    (changes : nat) todo :
  preserves P (catch_todo fuel t line index chunk changes todo).
Proof.
  revert t chunk changes todo. induction fuel as [|fuel IH]; intros; cbn [catch_todo]; [pres|].
  destruct (todo !! t) as [[r stopline]|]; [|pres].
  apply preserves_bind; [pres|]. intros [new d]. apply IH.
Qed.

Lemma catch_up_P (fuel index : nat) (chunk : list string) (changes : nat) todo :
  preserves P (catch_up fuel index chunk changes todo).
Proof.
  revert index chunk changes todo. induction fuel as [|fuel IH]; intros; cbn [catch_up]; [pres|].
  destruct (chunk !! index); [|pres].
  apply preserves_bind; [apply catch_todo_P|]. intros [[c n] t]. apply IH.
Qed.

Lemma press_mainloop_P (chunk : list string) : preserves P (press_mainloop chunk).
Proof.
  unfold press_mainloop, press_mainloop_trace.
  apply preserves_bind; [|intros [[c n] t]; pres].
  apply preserves_bind; [apply first_pass_P|]. intros [[c n] t]. apply catch_up_P.
Qed.

Lemma press_P (fuel : nat) (chunk : list string) : preserves P (press fuel chunk).
Proof.
  unfold press. generalize (map encode_punct_and_digits chunk) as c.
  induction fuel as [|fuel IH]; intros c; cbn [press_loop]; [pres|].
  apply preserves_bind; [apply press_mainloop_P|]. intros [c' n].
  destruct (n =? 0)%nat; [pres | apply IH].
Qed.

Hypothesis output_P : forall f st, P st -> P (set_compressed_output f st).

Lemma compress_loop_P (fuel : nat) (lines : list string) :
  forall chunk counter, preserves P (compress_loop fuel lines chunk counter).
Proof.
  induction lines as [|line rest IH]; intros; cbn [compress_loop]; [pres|].
  destruct (String.eqb line EmptyString); [pres|].
  destruct (CHUNK_SIZE <=? S counter)%nat; [|apply IH].
  apply preserves_bind; [apply press_P | intros ?].
  apply preserves_bind; [apply preserves_modify; intros; by apply output_P | intros _; apply IH].
Qed.

Lemma compress_P (fuel : nat) (lines : list string) : preserves P (compress fuel lines).
Proof.
  unfold compress. apply preserves_bind; [apply preserves_modify; intros; by apply output_P|intros _].
  apply preserves_bind; [apply compress_loop_P | intros _; pres].
Qed.

End Preserved.


Ltac ret_pair H :=
  let E := fresh "E" in
  apply ret_done in H as [E ?]; subst; try (injection E as <- <- <-); try (injection E as <- <-).

Ltac red_in H := cbv beta iota in H.

Lemma first_pass_len (fuel : nat) : forall index chunk changes todo st c n t st',
  first_pass fuel index chunk changes todo st = Done (c, n, t) st' ->
  List.length c = List.length chunk.
Proof.
  induction fuel as [|fuel IH]; intros * H; cbn [first_pass] in H; [by ret_pair H|].
  destruct (chunk !! index); [|by ret_pair H]. destruct (split_trailer s).
  inv_bind H. destruct a as [new d]. red_in H. inv_bind H.
  apply IH in H. by rewrite length_insert in H.
Qed.

Lemma catch_todo_len (fuel : nat) : forall t line index chunk changes todo st c n t' st',
  catch_todo fuel t line index chunk changes todo st = Done (c, n, t') st' ->
  List.length c = List.length chunk.
Proof.
  induction fuel as [|fuel IH]; intros * H; cbn [catch_todo] in H; [by ret_pair H|].
  destruct (todo !! t) as [[r stopline]|]; [|by ret_pair H].
  inv_bind H. destruct a as [new d]. red_in H.
  apply IH in H. by rewrite length_insert in H.
Qed.

Lemma catch_up_len (fuel : nat) : forall index chunk changes todo st c n t st',
  catch_up fuel index chunk changes todo st = Done (c, n, t) st' ->
  List.length c = List.length chunk.
Proof.
  induction fuel as [|fuel IH]; intros * H; cbn [catch_up] in H; [by ret_pair H|].
  destruct (chunk !! index); [|by ret_pair H].
  inv_bind H. destruct a as [[c1 n1] t1]. red_in H.
  apply IH in H. apply catch_todo_len in Hm. congruence.
Qed.

Lemma press_mainloop_len (chunk : list string) st c n st' :
  press_mainloop chunk st = Done (c, n) st' -> List.length c = List.length chunk.
Proof.
  intros H. unfold press_mainloop, press_mainloop_trace in H.
  inv_bind H. destruct a as [[c1 n1] t1]. red_in H. ret_pair H.
  inv_bind Hm. destruct a as [[c2 n2] t2]. red_in Hm.
  apply catch_up_len in Hm. apply first_pass_len in Hm0. congruence.
Qed.

Lemma press_loop_len (fuel : nat) : forall chunk st c st',
  press_loop fuel chunk st = Done c st' -> List.length c = List.length chunk.
Proof.
  induction fuel as [|fuel IH]; intros * H; cbn [press_loop] in H; [discriminate|].
  inv_bind H. destruct a as [c1 n1]. red_in H. apply press_mainloop_len in Hm.
  destruct (n1 =? 0)%nat; [ret_pair H; congruence|]. apply IH in H. congruence.
Qed.

Lemma press_len (fuel : nat) (chunk : list string) st c st' :
  press fuel chunk st = Done c st' -> List.length c = List.length chunk.
Proof. unfold press. intros H. apply press_loop_len in H. by rewrite H, length_map. Qed.

(** The computations below [map_words] touch only what these three do. *)
Lemma map_words_frame (Q : state -> Prop) :
  (forall w, preserves Q (phrase_node w)) ->
  (forall n l, preserves Q (add_parent n l)) ->
  (forall a b, preserves Q (gen_regex a b)) ->
  forall ws ln b i todo, preserves Q (map_words ws ln b i todo).
Proof.
  intros Hph Had Hgen ws. induction ws as [|w ws IH]; intros; cbn [map_words]; [pres|].
  destruct (String.eqb w EmptyString); [apply IH|].
  apply preserves_bind; [apply Hph|intros _].
  apply preserves_bind; [apply Had|intros c].
  apply preserves_bind; [|intros; apply IH].
  match goal with |- preserves _ (if ?b then _ else _) => destruct b end; [|pres].
  apply preserves_bind; [apply Hgen|intros; pres].
Qed.


Lemma map_words_out (o : list string) ws ln b i todo : preserves (out_is o) (map_words ws ln b i todo).
Proof.
  apply map_words_frame.
  - intros w. apply preserves_modify. done.
  - intros n l. unfold add_parent. pres. apply preserves_modify. done.
  - intros a0 b0. unfold gen_regex. pres. destruct (Token.next (token_gen a)). pres.
    apply preserves_modify. done.
Qed.

Lemma press_out (o : list string) fuel chunk : preserves (out_is o) (press fuel chunk).
Proof. apply press_P. intros. apply map_words_out. Qed.

Lemma compress_loop_out (fuel : nat) (lines : list string) : forall chunk counter st st',
  Forall (fun l => l <> EmptyString) lines -> List.length chunk = counter -> counter < 25 ->
  compress_loop fuel lines chunk counter st = Done tt st' ->
  List.length (compressed_output st') =
    List.length (compressed_output st) + 25 * ((counter + List.length lines) / 25).
Proof.
  induction lines as [|line rest IH]; intros chunk counter st st' Hne Hc Hlt H.
  - cbn [compress_loop] in H. ret_pair H. cbn [List.length].
    rewrite Nat.add_0_r, Nat.div_small by lia. lia.
  - apply Forall_cons in Hne as [Hl Hne]. cbn [compress_loop] in H.
    destruct (String.eqb_spec line EmptyString) as [|_]; [done|].
    unfold CHUNK_SIZE in H. cbn [List.length].
    destruct (Nat.leb_spec 25 (S counter)) as [Hge|Hlt'].
    + inv_bind H. inv_bind H. cbv [modify] in Hm0. injection Hm0 as _ <-.
      apply IH in H; [|done|done|lia]. rewrite H. cbn [compressed_output set_compressed_output].
      apply press_len in Hm as Hlen. rewrite length_app in Hlen. cbn [List.length] in Hlen.
      assert (Ho : compressed_output st0 = compressed_output st)
        by (eapply (press_out _ fuel); [reflexivity | exact Hm]).
      rewrite length_app, Hlen, Ho. replace (counter + S (List.length rest)) with (1 * 25 + List.length rest) by lia.
      rewrite Nat.div_add_l by lia. cbn [Nat.add]. lia.
    + apply IH in H; [|done|by rewrite length_app; cbn; lia|lia].
      rewrite H. do 3 f_equal. lia.
Qed.

Lemma cat_body_len (lines : list string) : forall st b st',
  cat_body lines st = Done b st' -> st' = st /\ List.length b = List.length lines.
Proof.
  induction lines as [|line rest IH]; intros st b st' H; cbn [cat_body] in H; [by ret_pair H|].
  destruct (split_trailer line). inv_bind H. apply bind_done in H as (o & st2 & H2 & H).
  ret_pair H. apply IH in H2 as [-> Hl].
  unfold apply_regexes in Hm. cbv [mbind M_bind get] in Hm.
  destruct (apply_all (expressions st) s); cbv [of_sum throw mret M_ret] in Hm; [discriminate|].
  injection Hm as _ <-. cbn. auto.
Qed.

Lemma run_len (fuel : nat) (lines : list string) out st' :
  Forall (fun l => l <> EmptyString) lines ->
  run fuel lines = Done out st' -> List.length out = 25 * (List.length lines / 25) + 2.
Proof.
  intros Hne H. unfold run, compress in H.
  inv_bind H. inv_bind Hm. cbv [modify] in Hm0. injection Hm0 as _ <-.
  inv_bind Hm. destruct a1. apply compress_loop_out in Hm0; [|done|done|lia].
  cbv [mbind M_bind get mret M_ret] in Hm. injection Hm as <- <-.
  unfold cat_lines in H. inv_bind H. cbv [get] in Hm. injection Hm as <- <-.
  inv_bind H. apply cat_body_len in Hm as [-> Hl]. inv_bind H. cbv [get] in Hm. injection Hm as <- <-.
  ret_pair H. rewrite length_app, Hl, Hm0. cbn. lia.
Qed.

Lemma cat_lines_state (st : state) b st' : cat_lines st = Done b st' -> st' = st.
Proof.
  intros H. unfold cat_lines in H. inv_bind H. cbv [get] in Hm. injection Hm as <- <-.
  inv_bind H. apply cat_body_len in Hm as [-> _]. inv_bind H. cbv [get] in Hm.
  injection Hm as <- <-. by ret_pair H.
Qed.

(** What [compress] keeps, a completed [run] ends in. *)
Lemma run_P (P : state -> Prop) (fuel : nat) (lines : list string) out st' :
  P init_state ->
  (forall ws ln b i todo, preserves P (map_words ws ln b i todo)) ->
  (forall f st, P st -> P (set_compressed_output f st)) ->
  run fuel lines = Done out st' -> P st'.
Proof.
  intros H0 Hmw Hout H. unfold run in H. inv_bind H. apply cat_lines_state in H as ->.
  eapply (compress_P P Hmw Hout); [exact H0 | exact Hm].
Qed.

(** *** The rule table *)

Lemma grows_refl (st : state) : grows st st.
Proof. intros a b c H. eauto. Qed.

Lemma grows_trans (s1 s2 s3 : state) : grows s1 s2 -> grows s2 s3 -> grows s1 s3.
Proof.
  intros H12 H23 a b c H. destruct (H12 a b c H) as (c2 & H2 & L2).
  destruct (H23 a b c2 H2) as (c3 & H3 & L3). exists c3. split; [done | lia].
Qed.

Lemma rules_ok_grows (st st' : state) :
  rules_ok st -> expressions st' = expressions st -> token_gen st' = token_gen st ->
  grows st st' -> rules_ok st'.
Proof.
  intros (Htg & Hnd & Hr) He Ht Hg. unfold rules_ok. rewrite He, Ht. split; [done|]. split; [done|].
  intros i k r Hi. destruct (Hr i k r Hi) as (H1 & H2 & H3 & a & b & c & Hk & Hc & L).
  destruct (Hg a b c Hc) as (c' & Hc' & L'). repeat split; try done.
  exists a, b, c'. split; [done|]. split; [done | lia].
Qed.

Lemma phrase_node_spec (w : string) (st : state) u st' :
  phrase_node w st = Done u st' ->
  expressions st' = expressions st /\ token_gen st' = token_gen st /\
  forall b, parents_of st' b = parents_of st b.
Proof.
  cbv [phrase_node modify]. intros H. injection H as _ <-. cbn. split; [done|]. split; [done|].
  intros b. unfold parents_of. cbn. destruct (phrases st !! w) eqn:E; [done|].
  destruct (decide (b = w)) as [->|Hne].
  - by rewrite lookup_insert_eq, E.
  - by rewrite lookup_insert_ne by congruence.
Qed.

Lemma add_parent_spec (node last : string) (st : state) c st' :
  add_parent node last st = Done c st' ->
  expressions st' = expressions st /\ token_gen st' = token_gen st /\ grows st st' /\
  parents_of st' node !! last = Some c.
Proof.
  cbv [add_parent mbind M_bind get modify mret M_ret]. intros H. injection H as <- <-.
  cbn. split; [done|]. split; [done|].
  assert (Hp : parents_of (set_phrases (<[node:=<[last:=match parents_of st node !! last with
      | Some n => n + 1 | None => 1 end]> (parents_of st node)]>) st) node =
      <[last:=match parents_of st node !! last with Some n => n + 1 | None => 1 end]>
        (parents_of st node)) by (unfold parents_of at 1; cbn; by rewrite lookup_insert_eq).
  split; [|by rewrite Hp, lookup_insert_eq].
  intros a b c Hc. destruct (decide (b = node)) as [->|Hb].
  - rewrite Hp. destruct (decide (a = last)) as [->|Ha].
    + rewrite lookup_insert_eq, Hc. eexists; split; [reflexivity | lia].
    + rewrite lookup_insert_ne by congruence. eauto.
  - unfold parents_of in *. cbn. rewrite lookup_insert_ne by congruence. eauto.
Qed.

Lemma assoc_mem_notin (k : string) (l : list (string * RegExTuple)) :
  assoc_mem k l = false -> k ∉ map fst l.
Proof.
  induction l as [|[k' v] l IH]; cbn [assoc_mem map fst]; [intros _; apply not_elem_of_nil|].
  intros H. apply orb_false_iff in H as [H1 H2]. apply not_elem_of_cons. split; [|by apply IH].
  intros ->. by rewrite String.eqb_refl in H1.
Qed.

Lemma gen_regex_ok (a b : string) (st : state) c r st' :
  rules_ok st -> parents_of st b !! a = Some c -> 5 <= c ->
  gen_regex a b st = Done r st' -> rules_ok st'.
Proof.
  intros (Htg & Hnd & Hr) Hc L H. cbv [gen_regex mbind M_bind get mret M_ret modify] in H.
  destruct (assoc_mem (a ++ " " ++ b)%string (expressions st)) eqn:Ha.
  - injection H as _ <-. by split; [|split].
  - destruct (Token.next (token_gen st)) as [tk tg] eqn:En. injection H as _ <-.
    unfold rules_ok. cbn. rewrite Htg in En. rewrite length_app. cbn [List.length].
    assert (Hs : Token.iter (List.length (expressions st) + 1) Token.init = tg).
    { rewrite Nat.add_1_r. cbn [Token.iter]. by rewrite En. }
    assert (Htk : tk = Token.token (Token.iter (S (List.length (expressions st))) Token.init)).
    { pose proof (TokenFacts.next_token (Token.iter (List.length (expressions st)) Token.init)) as Ht.
      rewrite En in Ht. cbn [fst snd] in Ht. rewrite Ht. cbn [Token.iter]. by rewrite En. }
    split; [done|]. split.
    + rewrite map_app. apply NoDup_app. split; [done|]. split; [|apply NoDup_singleton].
      intros x Hx ->%list_elem_of_singleton. cbn in Hx. by apply assoc_mem_notin in Ha.
    + intros i k r0 Hi. apply lookup_app_Some in Hi as [Hi|[Hl Hi]]; [by apply Hr|].
      apply list_lookup_singleton_Some in Hi as [Hi0 Hkr]. injection Hkr as <- <-.
      assert (i = List.length (expressions st)) as -> by lia. cbn.
      split; [|split; [done|split; [done|]]].
      * exact Htk.
      * exists a, b, c. repeat split; done.
Qed.

Lemma map_words_ok (ws : list string) : forall ln b i todo, preserves rules_ok (map_words ws ln b i todo).
Proof.
  induction ws as [|w ws IH]; intros ln lb i todo st a st' Hok H; cbn [map_words] in H.
  - by ret_pair H.
  - destruct (String.eqb w EmptyString); [eapply IH; eauto|].
    apply bind_done in H as (u & s1 & H1 & H). apply phrase_node_spec in H1 as (E1 & T1 & P1).
    apply bind_done in H as (cnt & s2 & H2 & H). apply add_parent_spec in H2 as (E2 & T2 & G2 & P2).
    assert (Ok1 : rules_ok s1).
    { apply (rules_ok_grows st); [done|done|done|]. intros x y z Hz. rewrite P1. eauto. }
    assert (Ok2 : rules_ok s2) by (by apply (rules_ok_grows s1)).
    apply bind_done in H as (todo' & s3 & H3 & H). eapply IH; [|exact H].
    destruct ((5 <=? cnt)%nat && negb lb) eqn:Ec.
    + apply andb_prop in Ec as [Ec _]. apply Nat.leb_le in Ec.
      apply bind_done in H3 as (nr & s4 & H4 & H3). apply ret_done in H3 as [_ ->].
      eapply gen_regex_ok; [exact Ok2 | exact P2 | exact Ec | exact H4].
    + by apply ret_done in H3 as [_ ->].
Qed.

Lemma rules_ok_init : rules_ok init_state.
Proof. split; [done|]. split; [constructor|]. intros i k r Hi. cbn in Hi. by rewrite lookup_nil in Hi. Qed.

Lemma run_rules_ok (fuel : nat) (lines : list string) out st' :
  run fuel lines = Done out st' -> rules_ok st'.
Proof.
  apply run_P; [apply rules_ok_init | apply map_words_ok |].
  intros f st (H1 & H2 & H3). split; [done|]. split; [done|]. exact H3.
Qed.

Lemma rule_tokens_distinct (st : state) :
  rules_ok st -> NoDup (map (fun kv => token kv.2) (expressions st)).
Proof.
  intros (_ & _ & Hr). apply NoDup_alt. intros i j x Hi Hj.
  apply list_lookup_fmap_Some in Hi as ([ki ri] & -> & Hi).
  apply list_lookup_fmap_Some in Hj as ([kj rj] & He & Hj). cbn in He.
  destruct (Hr _ _ _ Hi) as (Ti & _). destruct (Hr _ _ _ Hj) as (Tj & _).
  rewrite Ti, Tj in He.
  destruct (TokenFacts.iter_rank (S i)) as [Wi Ri]. destruct (TokenFacts.iter_rank (S j)) as [Wj Rj].
  apply TokenFacts.token_inj in He; [|done|done].
  unfold Token.rank in Ri, Rj. rewrite <- He in Rj. lia.
Qed.







End RunFacts.

(* ================================================================= *)
(** ** [press_duplicate_lines] *)

Module DupFacts.
Import Text Compressor DupLines.
Local Open Scope list_scope.

Lemma los_snoc (pre : string) (c : ascii) : los (pre ++ String c EmptyString)%string = los pre ++ [c].
Proof. unfold los. induction pre as [|a pre IH]; simpl; congruence. Qed.

Lemma drop_ws_head (l : list ascii) c r : drop_ws l = c :: r -> is_ws c = false.
Proof.
  induction l as [|a l IH]; cbn; [discriminate|].
  destruct (is_ws a) eqn:E; [exact IH | intros H; by injection H as -> ->].
Qed.

(** [str.rstrip()] never leaves a whitespace character at the end. *)
Lemma rstrip_last (l pre : list ascii) c : rstrip l = pre ++ [c] -> is_ws c = false.
Proof.
  unfold rstrip. intros H. apply (f_equal (@rev ascii)) in H.
  rewrite rev_involutive, rev_app_distr in H. cbn in H. by apply drop_ws_head in H.
Qed.

(** Extra: [press_duplicate_lines] raises [KeyError] on every chunk whose
    lines end in whitespace, as lines read with [readline] end in a
    newline: on an empty chunk for ['<n1>'], otherwise at the first line,
    because the new entry is stored under the line and looked up under its
    header, the line stripped of its trailing whitespace. *)
Theorem press_duplicate_lines_raises (chunk : list string) :
  Forall (fun line => exists pre c, line = (pre ++ String c EmptyString)%string /\ is_ws c = true) chunk ->
  press_duplicate_lines chunk =
    DupKeyError (match chunk with [] => "<n1>" | line :: _ => fst (split_trailer line) end).
Proof.
  intros Hf. destruct chunk as [|line rest]; [done|].
  apply Forall_cons in Hf as [(pre & c & -> & Hc) _].
  unfold press_duplicate_lines. cbn [dup_loop].
  destruct (split_trailer (pre ++ String c EmptyString)) as [h t] eqn:E. cbn [fst].
  rewrite lookup_empty. rewrite lookup_insert_ne, lookup_empty; [done|].
  intros Heq. unfold split_trailer in E. injection E as Eh _.
  apply (f_equal los) in Heq. rewrite <- Eh in Heq. unfold sol in Heq. unfold los in Heq at 2.
  rewrite list_ascii_of_string_of_list_ascii, los_snoc in Heq. symmetry in Heq.
  apply rstrip_last in Heq. congruence.
Qed.

Lemma press_duplicate_lines_raises_witness :
  Forall (fun line => exists pre c, line = (pre ++ String c EmptyString)%string /\ is_ws c = true)
    [line_of "a 1"; line_of "b"] /\
  press_duplicate_lines [line_of "a 1"; line_of "b"] =
    DupKeyError (fst (split_trailer (line_of "a 1"))).
Proof.
  assert (H : Forall (fun line => exists pre c, line = (pre ++ String c EmptyString)%string /\ is_ws c = true)
    [line_of "a 1"; line_of "b"]).
  { repeat constructor; [exists "a 1", nl | exists "b", nl]; split; reflexivity. }
  split; [exact H | exact (press_duplicate_lines_raises _ H)].
Defined.

End DupFacts.

(* ================================================================= *)
(** ** [PhraseNode]: [add_node] and [navigate] *)

Module PhraseFacts.
Import PhraseGraph.
Local Open Scope list_scope.

Lemma node_of_insert (g : graph) k v x :
  node_of (<[k := v]> g) x = if decide (x = k) then v else node_of g x.
Proof.
  unfold node_of. case_decide as Hx; [subst x; by rewrite lookup_insert_eq|].
  by rewrite lookup_insert_ne by congruence.
Qed.

Lemma node_of_phrase_node (g : graph) w x : node_of (phrase_node w g) x = node_of g x.
Proof.
  unfold phrase_node. destruct (g !! w) eqn:E; [done|]. rewrite node_of_insert.
  destruct (decide (x = w)) as [->|]; [unfold node_of; by rewrite E | done].
Qed.

Lemma add_node_unfold (a b : string) (g : graph) :
  add_node a b g =
    (let n := node_of (linked a b g) b in
     let c := match parents n !! a with Some k => k + 1 | None => 1 end in
     (c, <[b := mkNode (<[a := c]> (parents n)) (subnodes n)]> (linked a b g))).
Proof. reflexivity. Qed.

Lemma linked_parents (a b : string) (g : graph) y :
  parents (node_of (linked a b g) y) = parents (node_of g y).
Proof.
  unfold linked. case_bool_decide; [done|]. rewrite node_of_insert.
  destruct (decide (y = a)) as [->|]; done.
Qed.

Lemma linked_subnodes (a b : string) (g : graph) x :
  subnodes (node_of (linked a b g) x) =
    if decide (x = a) then
      (if bool_decide (b ∈ subnodes (node_of g a)) then subnodes (node_of g a)
       else subnodes (node_of g a) ++ [b])
    else subnodes (node_of g x).
Proof.
  unfold linked. destruct (decide (x = a)) as [->|Hx]; case_bool_decide; try done;
    rewrite node_of_insert; [by rewrite decide_True | by rewrite decide_False].
Qed.

Lemma add_node_count (a b : string) (g : graph) :
  (add_node a b g).1 = match parents (node_of g b) !! a with Some k => k + 1 | None => 1 end.
Proof. rewrite add_node_unfold. cbn. by rewrite linked_parents. Qed.

Lemma add_node_parents (a b : string) (g : graph) x y :
  parents (node_of (add_node a b g).2 y) !! x =
    if decide (y = b /\ x = a) then Some (add_node a b g).1 else parents (node_of g y) !! x.
Proof.
  rewrite add_node_count, add_node_unfold. cbn [snd]. rewrite node_of_insert.
  destruct (decide (y = b)) as [->|Hy].
  - cbn [parents]. rewrite linked_parents. destruct (decide (x = a)) as [->|Hx].
    + rewrite lookup_insert_eq. by rewrite decide_True.
    + rewrite lookup_insert_ne by congruence. rewrite decide_False; [done | tauto].
  - rewrite linked_parents, decide_False; [done | tauto].
Qed.

Lemma add_node_subnodes (a b : string) (g : graph) x :
  subnodes (node_of (add_node a b g).2 x) = subnodes (node_of (linked a b g) x).
Proof.
  rewrite add_node_unfold. cbn [snd]. rewrite node_of_insert.
  destruct (decide (x = b)) as [->|]; done.
Qed.

Lemma links_ok_empty : links_ok ∅.
Proof.
  split; [|intros x; unfold node_of; rewrite lookup_empty; constructor].
  intros x y. unfold node_of. rewrite !lookup_empty. cbn. rewrite lookup_empty.
  split; [intros H; by apply not_elem_of_nil in H | intros [? H]; discriminate].
Qed.

Lemma links_ok_add_node (a b : string) (g : graph) : links_ok g -> links_ok (add_node a b g).2.
Proof.
  intros [Hl Hn]. split.
  - intros x y. rewrite add_node_subnodes, linked_subnodes, add_node_parents.
    destruct (decide (x = a)) as [->|Hx].
    + destruct (decide (y = b)) as [->|Hy].
      * rewrite decide_True by tauto. split; [intros _; eauto|intros _].
        case_bool_decide; [done|]. apply elem_of_app. right. by apply list_elem_of_singleton.
      * rewrite decide_False by tauto. rewrite <- Hl.
        case_bool_decide; [done|]. rewrite elem_of_app, list_elem_of_singleton. tauto.
    + rewrite decide_False by tauto. apply Hl.
  - intros x. rewrite add_node_subnodes, linked_subnodes.
    destruct (decide (x = a)) as [->|]; [|done]. case_bool_decide as Hb; [done|].
    apply NoDup_app. split; [done|]. split; [|apply NoDup_singleton].
    intros z Hz ->%list_elem_of_singleton. contradiction.
Qed.

Lemma links_ok_phrase_node (w : string) (g : graph) : links_ok g -> links_ok (phrase_node w g).
Proof. intros [Hl Hn]. split; intros; rewrite !node_of_phrase_node; auto. Qed.

(** Extra: [add_node] returns the counter [parents[self]] of the added
    node after the call, which is one more than before, or 1 the first
    time; it is stored there and no other counter of any node changes. *)
Theorem add_node_counter (a b : string) (g : graph) :
  let '(c, g') := add_node a b g in
  c = match parents (node_of g b) !! a with Some k => k + 1 | None => 1 end /\
  forall x y, parents (node_of g' y) !! x =
    if decide (y = b /\ x = a) then Some c else parents (node_of g y) !! x.
Proof.
  pose proof (add_node_count a b g) as Hc. pose proof (add_node_parents a b g) as Hp.
  destruct (add_node a b g) as [c g']. split; [exact Hc | exact Hp].
Qed.

(** Extra: starting from no nodes, [PhraseNode(word)] and [add_node] keep
    the attributes and the counters in agreement: [b] is an [nd_]
    attribute of [a] exactly when [b] has a counter for [a], and no node
    lists an attribute twice. *)
Theorem phrase_links_agree :
  links_ok ∅ /\
  (forall g a b, links_ok g -> links_ok (add_node a b g).2) /\
  (forall g w, links_ok g -> links_ok (phrase_node w g)).
Proof.
  split; [apply links_ok_empty|]. split; intros; [by apply links_ok_add_node | by apply links_ok_phrase_node].
Qed.

Lemma navigate_fold_none (fuel : nat) (g : graph) (d : Z) (l : list string) :
  fold_left (fun acc n => match acc with
                          | Some (v, t) => navigate_in fuel g n d v t
                          | None => None end) l None = None.
Proof. induction l as [|n l IH]; cbn; auto. Qed.

Lemma elem_of_filter_list (f : string -> bool) (l : list string) x :
  x ∈ List.filter f l <-> x ∈ l /\ f x = true.
Proof. rewrite !list_elem_of_In. apply filter_In. Qed.

(** What a call of [navigate] adds: its word joins [already_visited];
    [func] sees only words that were not visited when the call started and
    are not its own word, each at 1 to [depth] steps along [nd_]
    attributes when [depth] is not negative. *)
Lemma navigate_in_spec (fuel : nat) : forall g w depth visited trace v t,
  navigate_in fuel g w depth visited trace = Some (v, t) ->
  visited ⊆ v /\ w ∈ v /\
  exists new, t = trace ++ new /\
    (forall x, x ∈ new -> (x ∉ {[w]} ∪ visited) /\
      ((0 <= depth)%Z -> exists k, 1 <= k <= Z.to_nat depth /\ reach g k w x)).
Proof.
  induction fuel as [|fuel IH]; intros g w depth visited trace v t H; cbn [navigate_in] in H;
    [discriminate|].
  destruct (Z.eqb_spec depth 0) as [Hd|Hd].
  - injection H as <- <-. split; [set_solver|]. split; [set_solver|].
    exists []. split; [by rewrite app_nil_r|]. intros x Hx. by apply not_elem_of_nil in Hx.
  - set (V1 := {[w]} ∪ visited) in H.
    set (tree := List.filter (fun n => negb (bool_decide (n ∈ V1))) (subnodes (node_of g w))) in H.
    assert (Inner : forall l V T, (forall n, n ∈ l -> n ∈ subnodes (node_of g w)) ->
      fold_left (fun acc n => match acc with
                              | Some (v, t) => navigate_in fuel g n (depth - 1) v t
                              | None => None end) l (Some (V, T)) = Some (v, t) ->
      V ⊆ v /\ exists new, t = T ++ new /\ (forall x, x ∈ new -> (x ∉ V) /\
        ((0 <= depth - 1)%Z -> exists k, 1 <= k <= Z.to_nat depth /\ reach g k w x))).
    { induction l as [|n l IHl]; intros V T Hsub Hf; cbn [fold_left] in Hf.
      - injection Hf as <- <-. split; [done|]. exists []. split; [by rewrite app_nil_r|].
        intros x Hx. by apply not_elem_of_nil in Hx.
      - destruct (navigate_in fuel g n (depth - 1) V T) as [[V2 T2]|] eqn:E;
          [|by rewrite navigate_fold_none in Hf].
        apply IH in E as (HV2 & Hn2 & new1 & -> & Hnew1).
        apply IHl in Hf as (HV & new2 & -> & Hnew2); [|intros m Hm; apply Hsub; by right].
        split; [set_solver|]. exists (new1 ++ new2). split; [by rewrite app_assoc|].
        intros x [Hx|Hx]%elem_of_app.
        + destruct (Hnew1 x Hx) as [Hnv Hr]. split; [set_solver|]. intros Hd1.
          destruct (Hr Hd1) as (k & Hk & Hreach). exists (S k). split; [lia|].
          exists n. split; [apply Hsub; by left | done].
        + destruct (Hnew2 x Hx) as [Hnv Hr]. split; [set_solver | done]. }
    apply Inner in H as (HV & new & -> & Hnew); [|intros n Hn; by apply elem_of_filter_list in Hn as [? _]].
    split; [set_solver|]. split; [set_solver|]. exists (tree ++ new). split; [by rewrite app_assoc|].
    intros x [Hx|Hx]%elem_of_app.
    + apply elem_of_filter_list in Hx as [Hx Hf]. apply negb_true_iff, bool_decide_eq_false in Hf.
      split; [done|]. intros Hd0. exists 1. split; [lia|]. exists x. by split.
    + destruct (Hnew x Hx) as [Hnv Hr]. split; [done|]. intros Hd0. apply Hr. lia.
Qed.

(** Extra: [node.navigate(depth, func)] never applies [func] to the node
    it is called on, and, for a depth that is not negative, applies it only
    to nodes reached from it by 1 to [depth] steps along [nd_] attributes. *)
Theorem navigate_applies_within_depth (fuel : nat) (g : graph) (w : string) (depth : Z) :
  match navigate fuel g w depth with
  | Some t => forall x, x ∈ t -> x <> w /\
      ((0 <= depth)%Z -> exists k, 1 <= k <= Z.to_nat depth /\ reach g k w x)
  | None => True
  end.
Proof.
  unfold navigate. destruct (navigate_in fuel g w depth ∅ []) as [[v t]|] eqn:E; [|done].
  apply navigate_in_spec in E as (_ & _ & new & -> & Hnew). intros x Hx.
  destruct (Hnew x Hx) as [Hn Hr]. split; [set_solver | done].
Qed.

End PhraseFacts.

(* ================================================================= *)
(** ** The encoding and [split_trailer] *)

Module EncodeFacts.
Import Text Compressor Devices.
Local Open Scope nat_scope.
Local Open Scope list_scope.

Lemma class_not_ws (c : ascii) : in_class c = true -> is_ws c = false.
Proof. destruct c as [[] [] [] [] [] [] [] []]; vm_compute; congruence. Qed.

Lemma class_not_underscore (c : ascii) : in_class c = true -> Ascii.eqb c "_"%char = false.
Proof. destruct c as [[] [] [] [] [] [] [] []]; vm_compute; congruence. Qed.

Lemma class_not_nl (c : ascii) : in_class c = true -> Ascii.eqb c nl = false.
Proof. destruct c as [[] [] [] [] [] [] [] []]; vm_compute; congruence. Qed.

Lemma class_span_spec (l : list ascii) :
  l = (class_span l).1 ++ (class_span l).2 /\ Forall (fun c => in_class c = true) (class_span l).1 /\
  (forall c rest, (class_span l).2 = c :: rest -> in_class c = false).
Proof.
  induction l as [|c l IH]; cbn [class_span]; [split; [done|]; split; [constructor | discriminate]|].
  destruct (in_class c) eqn:Ec.
  - destruct (class_span l) as [r rest]. cbn in *. destruct IH as (-> & Hr & Hrest).
    split; [done|]. split; [by constructor | done].
  - cbn. split; [done|]. split; [constructor|]. intros c' rest H. by injection H as -> ->.
Qed.

Lemma class_span_length (l : list ascii) : List.length (class_span l).2 <= List.length l.
Proof.
  destruct (class_span_spec l) as (E & _). rewrite E at 2. rewrite length_app. lia.
Qed.

Lemma encode_run_true (l : list ascii) :
  encode_run l true = (class_span l).1 ++ marker ++ encode_run (class_span l).2 false.
Proof.
  induction l as [|c l IH]; [done|]. cbn [encode_run class_span].
  destruct (in_class c) eqn:Ec.
  - destruct (class_span l) as [r rest]. cbn in *. by rewrite IH.
  - cbn [fst snd app]. cbn [encode_run]. by rewrite Ec.
Qed.

Lemma abstract_runs_true (l : list ascii) :
  abstract_runs l true = abstract_runs (class_span l).2 false.
Proof.
  induction l as [|c l IH]; [done|]. cbn [abstract_runs class_span].
  destruct (in_class c) eqn:Ec.
  - destruct (class_span l) as [r rest]. cbn in *. exact IH.
  - cbn [snd abstract_runs]. by rewrite Ec.
Qed.

Lemma class_runs_aux_cur (l cur : list ascii) :
  cur <> [] ->
  class_runs_aux l cur = (rev cur ++ (class_span l).1) :: class_runs_aux (class_span l).2 [].
Proof.
  revert cur. induction l as [|c l IH]; intros cur Hc; cbn [class_runs_aux class_span].
  - destruct cur; [done|]. cbn. by rewrite app_nil_r.
  - destruct (in_class c) eqn:Ec.
    + rewrite IH by done. destruct (class_span l) as [r rest]. cbn.
      by rewrite <- app_assoc.
    + destruct cur as [|x cur]; [done|]. cbn [fst snd class_runs_aux]. rewrite Ec, app_nil_r. done.
Qed.

Lemma class_runs_class (c : ascii) (l : list ascii) :
  in_class c = true ->
  class_runs (c :: l) = (c :: (class_span l).1) :: class_runs (class_span l).2.
Proof. intros Ec. unfold class_runs. cbn [class_runs_aux]. rewrite Ec. by rewrite class_runs_aux_cur. Qed.

Lemma class_runs_other (c : ascii) (l : list ascii) :
  in_class c = false -> class_runs (c :: l) = class_runs l.
Proof. intros Ec. unfold class_runs. cbn [class_runs_aux]. by rewrite Ec. Qed.

Lemma encode_run_head (l : list ascii) : hd_error (encode_run l false) <> Some "$"%char.
Proof.
  destruct l as [|d l]; cbn; [discriminate|]. destruct (in_class d) eqn:Ed; cbn; [discriminate|].
  intros H. injection H as ->. discriminate Ed.
Qed.

Lemma no_marker_at (c : ascii) (E : list ascii) :
  hd_error E <> Some "$"%char -> is_prefix marker (c :: E) = false.
Proof.
  intros H. change marker with ["_"%char; "$"%char; "_"%char]. cbn [is_prefix].
  destruct (Ascii.eqb "_" c); [|done]. destruct E as [|d E]; [done|]. cbn [is_prefix andb].
  destruct (Ascii.eqb_spec "$" d) as [<-|]; [exfalso; by apply H | done].
Qed.

Lemma is_prefix_marker (X : list ascii) : is_prefix marker (marker ++ X) = true.
Proof. reflexivity. Qed.

Lemma drop_marker (X : list ascii) : drop 3 (marker ++ X) = X.
Proof. reflexivity. Qed.

Lemma lazy_group_class (q X : list ascii) :
  Forall (fun c => in_class c = true) q -> lazy_group (q ++ marker ++ X) = Some (q, X).
Proof.
  induction q as [|c q IH]; intros Hq; [done|]. apply Forall_cons in Hq as [Hc Hq].
  cbn [app]. unfold lazy_group; fold lazy_group.
  assert (Hm : is_prefix marker (c :: q ++ marker ++ X) = false).
  { change marker with ["_"%char; "$"%char; "_"%char] at 1. cbn [is_prefix].
    rewrite Ascii.eqb_sym, class_not_underscore by done. done. }
  rewrite Hm, class_not_nl by done. by rewrite IH.
Qed.

Lemma findall_encode (n : nat) : forall l fuel,
  List.length l < n -> List.length (encode_run l false) < fuel ->
  findall_groups fuel (encode_run l false) = class_runs l.
Proof.
  induction n as [|n IH]; intros l fuel Hn Hf; [lia|].
  destruct fuel as [|fuel]; [lia|]. destruct l as [|c l]; [done|].
  destruct (in_class c) eqn:Ec.
  - rewrite class_runs_class by done. cbn [encode_run]. rewrite Ec. rewrite encode_run_true.
    cbn [encode_run] in Hf. rewrite Ec, encode_run_true in Hf.
    destruct (class_span_spec l) as (_ & Hr & _). pose proof (class_span_length l) as Hlen.
    destruct (class_span l) as [r rest]. cbn [fst snd] in *.
    change (findall_groups (S fuel) ("_"%char :: "$"%char :: "_"%char :: c :: r ++ marker ++ encode_run rest false)
      = (c :: r) :: class_runs rest).
    cbn [findall_groups]. unfold marker_match.
    change ("_"%char :: "$"%char :: "_"%char :: c :: r ++ marker ++ encode_run rest false) with
      (marker ++ (c :: r) ++ marker ++ encode_run rest false).
    rewrite is_prefix_marker, drop_marker.
    rewrite lazy_group_class by (by constructor). f_equal.
    apply IH; [cbn in Hn; lia|].
    rewrite length_app in Hf. cbn [List.length] in Hf. rewrite !length_app in Hf. lia.
  - rewrite class_runs_other by done. cbn [encode_run] in *. rewrite Ec in *. cbn [app List.length] in *.
    cbn [findall_groups]. unfold marker_match. rewrite no_marker_at by apply encode_run_head.
    apply IH; cbn in *; lia.
Qed.

Lemma findall_markers_encode (l : list ascii) : findall_markers (encode_run l false) = class_runs l.
Proof. unfold findall_markers. apply (findall_encode (S (List.length l))); lia. Qed.

Lemma sub_encode (n : nat) : forall l fuel,
  List.length l < n -> List.length (encode_run l false) < fuel ->
  sub_groups fuel (encode_run l false) = abstract_runs l false.
Proof.
  induction n as [|n IH]; intros l fuel Hn Hf; [lia|].
  destruct fuel as [|fuel]; [lia|]. destruct l as [|c l]; [done|].
  destruct (in_class c) eqn:Ec.
  - cbn [abstract_runs]. rewrite Ec, abstract_runs_true. cbn [encode_run]. rewrite Ec, encode_run_true.
    cbn [encode_run] in Hf. rewrite Ec, encode_run_true in Hf.
    destruct (class_span_spec l) as (_ & Hr & _). pose proof (class_span_length l) as Hlen.
    destruct (class_span l) as [r rest]. cbn [fst snd] in *.
    change (sub_groups (S fuel) (marker ++ (c :: r) ++ marker ++ encode_run rest false)
      = "#"%char :: abstract_runs rest false).
    cbn [sub_groups marker app]. fold marker.
    change ("_"%char :: "$"%char :: "_"%char :: c :: r ++ marker ++ encode_run rest false) with
      (marker ++ (c :: r) ++ marker ++ encode_run rest false).
    unfold marker_match. rewrite is_prefix_marker, drop_marker.
    pose proof (lazy_group_class (c :: r) (encode_run rest false)) as HL. cbn [app] in HL.
    rewrite HL by (by constructor).
    change marker with ["_"%char; "$"%char; "_"%char] at 1. cbn [app]. f_equal.
    apply IH; [cbn in Hn; lia|].
    rewrite length_app in Hf. cbn [List.length] in Hf. rewrite !length_app in Hf. lia.
  - cbn [abstract_runs encode_run] in *. rewrite Ec in *. cbn [app List.length] in *.
    cbn [sub_groups]. unfold marker_match. rewrite no_marker_at by apply encode_run_head.
    f_equal. apply IH; cbn in *; lia.
Qed.

Lemma sub_markers_encode (l : list ascii) : sub_markers (encode_run l false) = abstract_runs l false.
Proof. unfold sub_markers. apply (sub_encode (S (List.length l))); lia. Qed.

Lemma class_not_space (c : ascii) : in_class c = true -> Ascii.eqb c " "%char = false.
Proof. destruct c as [[] [] [] [] [] [] [] []]; vm_compute; congruence. Qed.

Lemma sp_brace_cons_ns (c : ascii) (E : list ascii) :
  Ascii.eqb c " "%char = false -> sp_brace (c :: E) = sp_brace E.
Proof. intros H. destruct E as [|d E]; cbn [sp_brace]; [done|]. by rewrite H. Qed.

Lemma sp_brace_cons_nb (c : ascii) (E : list ascii) :
  hd_error E <> Some "{"%char -> sp_brace (c :: E) = sp_brace E.
Proof.
  intros H. destruct E as [|d E]; cbn [sp_brace]; [done|].
  destruct (Ascii.eqb_spec d "{") as [->|Hd]; [by exfalso; apply H|]. by rewrite andb_false_r.
Qed.

Lemma sp_brace_encode (l : list ascii) : forall b,
  sp_brace (encode_run l b) = false /\ (b = false -> hd_error (encode_run l b) <> Some "{"%char).
Proof.
  induction l as [|c l IH]; intros b.
  - destruct b; cbn; split; try done; discriminate.
  - destruct (IH true) as [T _]. destruct (IH false) as [F Fh]. specialize (Fh eq_refl).
    cbn [encode_run]. destruct (in_class c) eqn:Ec; destruct b; cbn [app].
    + rewrite sp_brace_cons_ns by (by apply class_not_space). split; [done | discriminate].
    + change marker with ["_"%char; "$"%char; "_"%char]. cbn [app].
      rewrite !sp_brace_cons_ns by (first [apply class_not_space; done | reflexivity]).
      split; [done|].
      intros _. cbn. discriminate.
    + change marker with ["_"%char; "$"%char; "_"%char]. cbn [app].
      rewrite !sp_brace_cons_ns by reflexivity. rewrite sp_brace_cons_nb by done. split; [done | discriminate].
    + rewrite sp_brace_cons_nb by done. split; [done|]. intros _. cbn. intros H.
      injection H as ->. discriminate Ec.
Qed.

Lemma sp_brace_prefix (p s : list ascii) : sp_brace (p ++ s) = false -> sp_brace p = false.
Proof.
  induction p as [|a p IH]; [done|]. destruct p as [|b p]; [done|]. cbn [app sp_brace].
  intros H. apply orb_false_iff in H as [H1 H2]. rewrite H1. cbn. apply IH. exact H2.
Qed.

Lemma drop_ws_suffix (m : list ascii) : exists w, m = w ++ drop_ws m.
Proof.
  induction m as [|c m IH]; [by exists []|]. cbn [drop_ws]. destruct (is_ws c).
  - destruct IH as [w Hw]. exists (c :: w). cbn. by f_equal.
  - by exists [].
Qed.

Lemma rstrip_prefix (l : list ascii) : exists w, l = rstrip l ++ w.
Proof.
  destruct (drop_ws_suffix (rev l)) as [w Hw]. exists (rev w). unfold rstrip.
  rewrite <- rev_app_distr, <- Hw. by rewrite rev_involutive.
Qed.

Lemma search_brace_none (l : list ascii) : sp_brace l = false -> search_brace l = None.
Proof.
  induction l as [|c l IH]; intros H; [done|]. cbn [search_brace].
  assert (Hl : sp_brace l = false).
  { destruct l as [|d l]; [done|]. cbn [sp_brace] in H. by apply orb_false_iff in H as [_ H]. }
  rewrite (IH Hl).
  destruct (Ascii.eqb c " "%char) eqn:Ec; [|done]. destruct l as [|d l]; [done|].
  cbn [sp_brace] in H. rewrite Ec in H. cbn [andb] in H.
  destruct (Ascii.eqb d "{"%char); [discriminate | done].
Qed.

Lemma search_brace_rstrip_encode (l : list ascii) : search_brace (rstrip (encode_run l false)) = None.
Proof.
  apply search_brace_none. destruct (rstrip_prefix (encode_run l false)) as [w Hw].
  apply (sp_brace_prefix _ w). rewrite <- Hw. apply sp_brace_encode.
Qed.

Lemma abstract_no_brace (m : list ascii) : forall b,
  Forall (fun c => Ascii.eqb c "{"%char = false) (abstract_runs m b).
Proof.
  induction m as [|c m IH]; intros b; cbn [abstract_runs]; [constructor|].
  destruct (in_class c) eqn:Ec.
  - destruct b; cbn [app]; [apply IH | constructor; [done | apply IH]].
  - constructor; [|apply IH]. destruct (Ascii.eqb_spec c "{") as [->|]; [discriminate Ec | done].
Qed.

Lemma sp_brace_no_brace (m : list ascii) :
  Forall (fun c => Ascii.eqb c "{"%char = false) m -> sp_brace m = false.
Proof.
  induction m as [|a m IH]; intros H; [done|]. apply Forall_cons in H as [_ H].
  destruct m as [|b m]; [done|]. cbn [sp_brace]. apply Forall_cons in H as [Hb H'] .
  rewrite Hb, andb_false_r. cbn [orb]. apply IH. by constructor.
Qed.

Lemma clean_encoding_encode (line : string) :
  los (clean_encoding (encode_punct_and_digits line)) = abstract_runs (los line) false.
Proof.
  unfold encode_punct_and_digits. destruct (los line) as [|c l] eqn:El; [done|].
  assert (Hne : exists e E, encode_run (c :: l) false = e :: E).
  { cbn [encode_run]. destruct (in_class c); cbn; eauto. }
  destruct Hne as (e & E & HE). rewrite HE. cbn [sol string_of_list_ascii]. unfold clean_encoding.
  fold (sol E). change (los (String e (sol E))) with (e :: los (sol E)).
  assert (Hl : los (sol E) = E) by apply list_ascii_of_string_of_list_ascii.
  rewrite Hl, <- HE, sub_markers_encode, search_brace_none by (apply sp_brace_no_brace, abstract_no_brace).
  apply list_ascii_of_string_of_list_ascii.
Qed.

Lemma class_runs_aux_shape (l cur : list ascii) :
  Forall (fun c => in_class c = true) cur ->
  Forall (fun r => r <> [] /\ Forall (fun c => in_class c = true) r) (class_runs_aux l cur).
Proof.
  revert cur. induction l as [|c l IH]; intros cur Hc; cbn [class_runs_aux].
  - destruct cur as [|x cur]; [constructor|]. constructor; [|constructor]. split.
    + intros H. apply (f_equal (@List.length ascii)) in H. rewrite length_rev in H. discriminate.
    + by apply Forall_rev.
  - destruct (in_class c) eqn:Ec; [apply IH; by constructor|].
    apply Forall_app. split; [|apply IH; constructor].
    destruct cur as [|x cur]; [constructor|]. constructor; [|constructor]. split.
    + intros H. apply (f_equal (@List.length ascii)) in H. rewrite length_rev in H. discriminate.
    + by apply Forall_rev.
Qed.

Lemma join_ends (rs : list (list ascii)) :
  rs <> [] -> Forall (fun r => r <> [] /\ Forall (fun c => in_class c = true) r) rs ->
  (exists c J, join [" "%char] rs = c :: J /\ in_class c = true) /\
  (exists J c, join [" "%char] rs = J ++ [c] /\ in_class c = true).
Proof.
  induction rs as [|r rs IH]; intros Hne Hf; [done|]. apply Forall_cons in Hf as [[Hr Hrc] Hf].
  assert (Hhead : exists c r', r = c :: r' /\ in_class c = true).
  { destruct r as [|c r']; [done|]. apply Forall_cons in Hrc as [? _]. eauto. }
  destruct rs as [|r2 rs].
  - cbn [join]. split; [exact Hhead|]. destruct (exists_last Hr) as (J & c & ->).
    apply Forall_app in Hrc as [_ Hc]. apply Forall_cons in Hc as [Hc _]. eauto.
  - destruct IH as [_ (J & c & HJ & Hc)]; [done | done |].
    change (join [" "%char] (r :: r2 :: rs)) with (r ++ [" "%char] ++ join [" "%char] (r2 :: rs)).
    split.
    + destruct Hhead as (c0 & r' & -> & Hc0). exists c0. eexists. split; [reflexivity | done].
    + rewrite HJ. exists (r ++ [" "%char] ++ J), c. split; [by rewrite !app_assoc | done].
Qed.

Lemma strip_join (J : list ascii) :
  (exists c J', J = c :: J' /\ in_class c = true) ->
  (exists J' c, J = J' ++ [c] /\ in_class c = true) ->
  strip (" "%char :: J) = J.
Proof.
  intros (c & J1 & H1 & Hc1) (J2 & c2 & H2 & Hc2). unfold strip. cbn [drop_ws].
  change (is_ws " "%char) with true. cbn iota.
  assert (Hd : drop_ws J = J) by (rewrite H1; cbn [drop_ws]; by rewrite class_not_ws).
  rewrite Hd. unfold rstrip. rewrite H2, rev_app_distr. cbn [rev app drop_ws].
  rewrite class_not_ws by done. cbn [rev]. by rewrite rev_involutive.
Qed.

Lemma los_encode (line : string) : los (encode_punct_and_digits line) = encode_run (los line) false.
Proof. apply list_ascii_of_string_of_list_ascii. Qed.

(** Extra: on a line that [encode_punct_and_digits] encoded,
    [split_trailer] returns as the line the original with each maximal run
    of digits and punctuation replaced by ['#'], right-stripped, and as the
    trailer [' {' + ' '.join(runs) + '}'] of those runs in order, or [''] when
    the line has none. *)
Theorem split_trailer_encoded (line : string) :
  split_trailer (encode_punct_and_digits line) =
    (sol (rstrip (abstract_runs (los line) false)),
     sol (match class_runs (los line) with
          | [] => []
          | rs => los " {" ++ join [" "%char] rs ++ los "}"
          end)).
Proof.
  unfold split_trailer. rewrite clean_encoding_encode, los_encode.
  rewrite search_brace_rstrip_encode, findall_markers_encode. f_equal.
  pose proof (class_runs_aux_shape (los line) [] ltac:(constructor)) as Hs. fold (class_runs (los line)) in Hs.
  destruct (class_runs (los line)) as [|r rs] eqn:Hc; [done|].
  destruct (join_ends (r :: rs)) as [Hh Ht]; [done | done |].
  destruct Hh as (c & J & HJ & Hcc). rewrite HJ. cbn [app]. rewrite <- HJ.
  rewrite strip_join; [| by eauto | done]. by rewrite HJ.
Qed.

Lemma ws_not_class (c : ascii) : is_ws c = true -> in_class c = false.
Proof. intros H. destruct (in_class c) eqn:E; [|done]. by rewrite class_not_ws in H. Qed.

Lemma abstract_app_other (x w : list ascii) : forall b,
  Forall (fun c => in_class c = false) w -> abstract_runs (x ++ w) b = abstract_runs x b ++ w.
Proof.
  induction x as [|c x IH]; intros b Hw; cbn [app abstract_runs].
  - revert b. induction w as [|d w IHw]; intros b; [done|]. apply Forall_cons in Hw as [Hd Hw].
    cbn [abstract_runs]. rewrite Hd. f_equal. by apply IHw.
  - destruct (in_class c); [by rewrite IH, app_assoc | by rewrite IH].
Qed.

Lemma class_runs_aux_app_other (x w cur : list ascii) :
  Forall (fun c => in_class c = false) w -> class_runs_aux (x ++ w) cur = class_runs_aux x cur.
Proof.
  intros Hw. revert cur. induction x as [|c x IH]; intros cur; cbn [app class_runs_aux].
  - assert (H0 : class_runs_aux w [] = []).
    { induction w as [|d w IHw]; [done|]. apply Forall_cons in Hw as [Hd Hw]. cbn. rewrite Hd. by apply IHw. }
    destruct w as [|d w]; [done|]. apply Forall_cons in Hw as [Hd Hw']. cbn [class_runs_aux]. rewrite Hd.
    assert (H1 : class_runs_aux w [] = []).
    { clear H0. induction w as [|e w IHw]; [done|]. apply Forall_cons in Hw' as [He Hw'].
      cbn. rewrite He. by apply IHw. }
    rewrite H1, app_nil_r. done.
  - destruct (in_class c); [apply IH | by rewrite IH].
Qed.

Lemma drop_ws_spec (m : list ascii) :
  exists w, m = w ++ drop_ws m /\ Forall (fun c => is_ws c = true) w /\
    (drop_ws m = [] \/ exists c m', drop_ws m = c :: m' /\ is_ws c = false).
Proof.
  induction m as [|c m IH]; [exists []; split; [done|]; split; [constructor | by left]|].
  cbn [drop_ws]. destruct (is_ws c) eqn:Ec.
  - destruct IH as (w & Hw & Hf & Hd). exists (c :: w). split; [cbn; by f_equal|]. split; [by constructor | done].
  - exists []. split; [done|]. split; [constructor|]. right. eauto.
Qed.

Lemma rstrip_spec (l : list ascii) :
  exists w, l = rstrip l ++ w /\ Forall (fun c => is_ws c = true) w /\
    (rstrip l = [] \/ exists x c, rstrip l = x ++ [c] /\ is_ws c = false).
Proof.
  destruct (drop_ws_spec (rev l)) as (w & Hw & Hf & Hd). exists (rev w). unfold rstrip.
  split; [rewrite <- rev_app_distr, <- Hw; by rewrite rev_involutive|].
  split; [by apply Forall_rev|]. destruct Hd as [-> | (c & m' & -> & Hc)]; [by left|].
  right. exists (rev m'), c. by split.
Qed.

Lemma rstrip_app_ws (A w : list ascii) : Forall (fun c => is_ws c = true) w -> rstrip (A ++ w) = rstrip A.
Proof.
  intros Hw. unfold rstrip. rewrite rev_app_distr. f_equal.
  apply Forall_rev in Hw. induction (rev w) as [|c w' IH]; [done|].
  apply Forall_cons in Hw as [Hc Hw]. cbn. rewrite Hc. by apply IH.
Qed.

Lemma rstrip_id (A : list ascii) :
  (A = [] \/ exists A' c, A = A' ++ [c] /\ is_ws c = false) -> rstrip A = A.
Proof.
  intros [-> | (A' & c & -> & Hc)]; [done|]. unfold rstrip. rewrite rev_app_distr. cbn.
  rewrite Hc. cbn. by rewrite rev_involutive.
Qed.

Lemma abstract_last (x : list ascii) : forall b,
  (x = [] \/ exists x' c, x = x' ++ [c] /\ is_ws c = false) ->
  abstract_runs x b = [] \/ exists A c, abstract_runs x b = A ++ [c] /\ is_ws c = false.
Proof.
  induction x as [|c0 x IH]; intros b Hx; [by left|].
  assert (Hx1 : x = [] \/ exists x' c, x = x' ++ [c] /\ is_ws c = false).
  { destruct x as [|d x]; [by left|]. right. destruct Hx as [|(x' & c & Hx & Hc)]; [done|].
    destruct x' as [|e x']; [injection Hx as _ Hx; by destruct x|].
    injection Hx as _ Hx. eauto. }
  assert (Hsharp : is_ws "#"%char = false) by reflexivity.
  cbn [abstract_runs]. destruct (in_class c0) eqn:Ec.
  - destruct (IH true Hx1) as [He | (A & c & He & Hc)].
    + rewrite He, app_nil_r. destruct b; [by left|]. right. exists [], "#"%char. by split.
    + right. rewrite He. exists ((if b then [] else ["#"%char]) ++ A), c. split; [by rewrite app_assoc | done].
  - destruct x as [|d x].
    + right. exists [], c0. split; [done|]. destruct Hx as [|(x' & c & Hx & Hc)]; [done|].
      destruct x' as [|e x']; [by injection Hx as -> | injection Hx as _ Hx; by destruct x'].
    + destruct (IH false Hx1) as [He | (A & c & He & Hc)].
      * exfalso. cbn [abstract_runs] in He. destruct (in_class d); discriminate.
      * right. rewrite He. exists (c0 :: A), c. by split.
Qed.

Lemma fill_abstract (n : nat) : forall l, List.length l < n -> fill (abstract_runs l false) (class_runs l) = l.
Proof.
  induction n as [|n IH]; intros l Hn; [lia|]. destruct l as [|c l]; [done|].
  destruct (in_class c) eqn:Ec.
  - rewrite class_runs_class by done. cbn [abstract_runs]. rewrite Ec, abstract_runs_true.
    destruct (class_span_spec l) as (Hl & _). pose proof (class_span_length l) as Hlen.
    destruct (class_span l) as [r rest]. cbn [fst snd app fill] in *.
    change (Ascii.eqb "#" "#") with true. cbn iota. rewrite IH by (cbn in Hn; lia).
    by rewrite Hl.
  - rewrite class_runs_other by done. cbn [abstract_runs fill]. rewrite Ec.
    assert (Hc : Ascii.eqb c "#"%char = false).
    { destruct (Ascii.eqb_spec c "#") as [->|]; [discriminate Ec | done]. }
    cbn [fill]. rewrite Hc. f_equal. apply IH. cbn in Hn. lia.
Qed.

Lemma split_aux_run (r tail cur : list ascii) :
  Forall (fun c => is_ws c = false) r -> split_aux (r ++ tail) cur = split_aux tail (rev r ++ cur).
Proof.
  revert cur. induction r as [|c r IH]; intros cur Hr; [done|]. apply Forall_cons in Hr as [Hc Hr].
  cbn [app split_aux]. rewrite Hc. rewrite IH by done. cbn. by rewrite <- app_assoc.
Qed.

Lemma split_join (rs : list (list ascii)) :
  Forall (fun r => r <> [] /\ Forall (fun c => in_class c = true) r) rs ->
  split_aux (join [" "%char] rs) [] = rs.
Proof.
  induction rs as [|r rs IH]; intros Hf; [done|]. apply Forall_cons in Hf as [[Hr Hrc] Hf].
  assert (Hws : Forall (fun c => is_ws c = false) r).
  { eapply Forall_impl; [exact Hrc|]. intros c. apply class_not_ws. }
  assert (Hrev : rev r <> []) by (intros H; apply Hr; by rewrite <- (rev_involutive r), H).
  destruct rs as [|r2 rs].
  - cbn [join]. rewrite <- (app_nil_r r) at 1. rewrite split_aux_run, app_nil_r by done.
    destruct (rev r) as [|x y] eqn:E; [done|]. cbn [split_aux]. rewrite <- E, rev_involutive. done.
  - change (join [" "%char] (r :: r2 :: rs)) with (r ++ [" "%char] ++ join [" "%char] (r2 :: rs)).
    rewrite split_aux_run by done. cbn [app split_aux]. change (is_ws " "%char) with true. cbn iota.
    rewrite app_nil_r. destruct (rev r) as [|x y] eqn:E; [done|]. rewrite <- E, rev_involutive.
    f_equal. by apply IH.
Qed.

Lemma trailer_items_runs (l : list ascii) :
  trailer_items (sol (match class_runs l with
                      | [] => []
                      | rs => los " {" ++ join [" "%char] rs ++ los "}"
                      end)) = class_runs l.
Proof.
  pose proof (class_runs_aux_shape l [] ltac:(constructor)) as Hs. fold (class_runs l) in Hs.
  destruct (class_runs l) as [|r rs] eqn:Hc; [done|]. unfold trailer_items.
  unfold sol, los. rewrite list_ascii_of_string_of_list_ascii. fold los. fold sol.
  change (drop 2 (los " {" ++ join [" "%char] (r :: rs) ++ los "}")) with (join [" "%char] (r :: rs) ++ ["}"%char]).
  rewrite removelast_last. unfold py_split. unfold sol, los. rewrite list_ascii_of_string_of_list_ascii.
  rewrite split_join by done. rewrite map_map. erewrite map_ext; [apply map_id|].
  intros a. apply list_ascii_of_string_of_list_ascii.
Qed.

(** Extra: [split_trailer] loses nothing of an encoded line but its
    trailing whitespace: putting the items of the trailer back in place of
    the ['#']s of the returned line, in order, gives the original line
    right-stripped. *)
Theorem split_trailer_encoded_round_trip (line : string) :
  let '(body, trailer) := split_trailer (encode_punct_and_digits line) in
  fill (los body) (trailer_items trailer) = rstrip (los line).
Proof.
  rewrite split_trailer_encoded. rewrite trailer_items_runs.
  unfold sol, los at 1. rewrite list_ascii_of_string_of_list_ascii. fold los.
  destruct (rstrip_spec (los line)) as (w & Hl & Hw & Hlast).
  assert (Hwc : Forall (fun c => in_class c = false) w).
  { eapply Forall_impl; [exact Hw|]. intros c. apply ws_not_class. }
  rewrite Hl at 1 2. rewrite abstract_app_other, rstrip_app_ws by done.
  rewrite rstrip_id by (by apply abstract_last).
  unfold class_runs. rewrite class_runs_aux_app_other by done. fold (class_runs (rstrip (los line))).
  apply (fill_abstract (S (List.length (rstrip (los line))))). lia.
Qed.

End EncodeFacts.

(* ================================================================= *)
(** ** Applying a rule *)

Module SubnFacts.
Import Text Compressor Devices.
Local Open Scope nat_scope.
Local Open Scope list_scope.

Lemma spaces_l_app (x y : list ascii) : spaces_l (x ++ y) = spaces_l x + spaces_l y.
Proof. unfold spaces_l. by rewrite List.filter_app, length_app. Qed.

Lemma spaces_l_cons (c : ascii) (l : list ascii) :
  spaces_l (c :: l) = (if Ascii.eqb c " "%char then 1 else 0) + spaces_l l.
Proof. unfold spaces_l. cbn. by destruct (Ascii.eqb c " "). Qed.

Lemma los_app (x y : string) : los (x ++ y)%string = los x ++ los y.
Proof.
  unfold los. induction x as [|c x IH]; [done|].
  change (c :: list_ascii_of_string (x +:+ y) = c :: (list_ascii_of_string x ++ list_ascii_of_string y)).
  by rewrite IH.
Qed.

Lemma is_prefix_spec (p l : list ascii) : is_prefix p l = true -> l = p ++ drop (List.length p) l.
Proof.
  revert l. induction p as [|a p IH]; intros l H; [done|]. destruct l as [|b l]; [discriminate|].
  cbn in H. apply andb_prop in H as [Hab H]. apply Ascii.eqb_eq in Hab as ->. cbn. f_equal. by apply IH.
Qed.

(** Unescaping keeps the spaces: an escape is a backslash and a character
    that is replaced by itself or by a control character. *)
Lemma parse_literal_spaces (n : nat) : forall p q,
  List.length p < n -> parse_literal p = inr q -> spaces_l q = spaces_l p.
Proof.
  induction n as [|n IH]; intros p q Hn H; [lia|]. destruct p as [|c p]; [by injection H as <-|].
  cbn [parse_literal] in H. cbn [List.length] in Hn.
  destruct (Ascii.eqb_spec c backslash) as [->|Hc].
  - destruct p as [|e p]; [discriminate|]. cbn [List.length] in Hn.
    rewrite spaces_l_cons, spaces_l_cons. change (Ascii.eqb backslash " "%char) with false. cbn iota.
    destruct (is_digit e || is_letter e) eqn:Ee.
    + destruct (control_escape e) as [x|] eqn:Ex; [|by destruct (special_escape e)].
      destruct (parse_literal p) as [|r] eqn:Hp; [discriminate|]. injection H as <-.
      rewrite spaces_l_cons. rewrite (IH p r) by (lia || done).
      assert (Hx : Ascii.eqb x " "%char = false /\ Ascii.eqb e " "%char = false).
      { unfold control_escape in Ex.
        repeat (match type of Ex with context [Ascii.eqb e ?k] => destruct (Ascii.eqb_spec e k) as [->|?] end;
          [injection Ex as <-; split; reflexivity|]).
        discriminate. }
      destruct Hx as [-> ->]. done.
    + destruct (parse_literal p) as [|r] eqn:Hp; [discriminate|]. injection H as <-.
      rewrite spaces_l_cons. by rewrite (IH p r) by (lia || done).
  - destruct (is_meta c); [discriminate|].
    destruct (parse_literal p) as [|r] eqn:Hp; [discriminate|]. injection H as <-.
    rewrite !spaces_l_cons. by rewrite (IH p r) by (lia || done).
Qed.

Lemma subn_lit_spaces (fuel : nat) : forall pat repl s out n,
  pat <> [] -> subn_lit fuel pat repl s = (out, n) ->
  spaces_l out + n * spaces_l pat = spaces_l s + n * spaces_l repl.
Proof.
  induction fuel as [|fuel IH]; intros pat repl s out n Hp H; cbn [subn_lit] in H.
  - injection H as <- <-. lia.
  - destruct s as [|c s]; [injection H as <- <-; cbn; lia|].
    destruct (is_prefix pat (c :: s)) eqn:Hpre.
    + destruct (subn_lit fuel pat repl (drop (List.length pat) (c :: s))) as [r m] eqn:Hs.
      injection H as <- <-. apply IH in Hs; [|done].
      apply is_prefix_spec in Hpre. rewrite Hpre. rewrite !spaces_l_app. lia.
    + destruct (subn_lit fuel pat repl s) as [r m] eqn:Hs. injection H as <- <-.
      apply IH in Hs; [|done]. rewrite !spaces_l_cons. lia.
Qed.

Lemma apply_one_spaces (line : string) (r : RegExTuple) (a b line' : string) (n : nat) :
  regex r = (a ++ " " ++ b)%string -> spaces a = 0 -> spaces b = 0 -> spaces (token r) = 0 ->
  apply_one line r = inr (line', n) -> spaces line' + n = spaces line.
Proof.
  intros Hr Ha Hb Ht H. unfold apply_one, re_subn in H.
  destruct (parse_literal (los (regex r))) as [|pat] eqn:Hp; [discriminate|].
  destruct pat as [|c pat]; [discriminate|]. destruct (mem backslash (los (token r))); [discriminate|].
  destruct (subn_lit _ (c :: pat) (los (token r)) (los line)) as [out m] eqn:Hs.
  injection H as <- <-. apply subn_lit_spaces in Hs; [|discriminate].
  apply (parse_literal_spaces (S (List.length (los (regex r))))) in Hp; [|lia].
  rewrite Hr, !los_app, !spaces_l_app in Hp. unfold spaces in *.
  change (spaces_l (los " ")) with 1 in Hp. rewrite Ha, Hb in Hp. rewrite Hp, Ht in Hs.
  assert (E : los (sol out) = out) by apply list_ascii_of_string_of_list_ascii.
  rewrite E. lia.
Qed.

(** A rule of the shape [gen_regex] stores: its pattern is two words with
    one space between them, and its token has no space. *)
Definition phrase_rule (r : RegExTuple) : Prop :=
  exists a b, regex r = (a ++ " " ++ b)%string /\ spaces a = 0 /\ spaces b = 0 /\ spaces (token r) = 0.

Lemma apply_all_spaces (rs : list (string * RegExTuple)) : forall line line' n,
  Forall (fun kr => phrase_rule (snd kr)) rs ->
  apply_all rs line = inr (line', n) -> spaces line' + n = spaces line.
Proof.
  induction rs as [|[k r] rs IH]; intros line line' n Hrs H; cbn [apply_all] in H.
  - injection H as <- <-. lia.
  - apply Forall_cons in Hrs as [(a & b & Hr & Ha & Hb & Ht) Hrs].
    destruct (apply_one line r) as [|[l1 d]] eqn:H1; [discriminate|].
    destruct (apply_all rs l1) as [|[l2 d']] eqn:H2; [discriminate|].
    injection H as <- <-. apply (apply_one_spaces _ _ a b) in H1; [|done..].
    apply IH in H2; [|done]. lia.
Qed.






End SubnFacts.
